(** * A shallow embedding of [src/interpolator.py] (AudioInterpolator)

    Samples are modelled as exact rationals [Q] (the source works on
    float64 values; the WAV reader delivers int16 values times 256, and
    everything the claims look at is copied, not computed, except the
    spline values).  An [AudioInterpolator] object is a record of its
    fields; [interpolate_chunk] runs in a small state and exception monad
    over that record, so that a [ValueError] raised in the middle of the
    loops leaves the object as the loops have mutated it, as in Python. *)

From Stdlib Require Import String Ascii QArith Qabs ZArith NArith Lia Bool Arith List.
From Stdlib Require Strings.Byte.
Import ListNotations.
Local Open Scope nat_scope.

(** ** The object and its fields *)

Inductive py_error : Type :=
| ValueError (msg : string).

(** [previous_samples] is the (9, 2) float64 array (a list of 9 rows of 2
    channels), [chunk_end_sample] the single row of the (1, 2) array. *)
Record AudioInterpolator : Type := mkAudioInterpolator {
  previous_samples : list (list Q);
  chunk_end_sample : list Q;
  method : string
}.

(** [self.channels = 2] is set once in [__init__] and never reassigned. *)
Definition channels : nat := 2.

(** [np.zeros((r, c))] *)
Definition zeros (r c : nat) : list (list Q) := repeat (repeat 0%Q c) r.

(** [__init__(self, method)]: no check of [method] is made. *)
Definition init (m : string) : AudioInterpolator :=
  {| previous_samples := zeros 9 2;
     chunk_end_sample := repeat 0%Q 2;
     method := m |}.

(** [reset(self)]: only [previous_samples] is reassigned. *)
Definition reset (self : AudioInterpolator) : AudioInterpolator :=
  {| previous_samples := zeros 9 2;
     chunk_end_sample := chunk_end_sample self;
     method := method self |}.

(** ** The state and exception monad *)

Definition M (A : Type) : Type :=
  AudioInterpolator -> (A + py_error) * AudioInterpolator.

Definition ret {A} (a : A) : M A := fun s => (inl a, s).
Definition raise {A} (e : py_error) : M A := fun s => (inr e, s).
Definition get : M AudioInterpolator := fun s => (inl s, s).
Definition put (s' : AudioInterpolator) : M unit := fun _ => (inl tt, s').
Definition bind {A B} (m : M A) (k : A -> M B) : M B :=
  fun s => match m s with
           | (inl a, s') => k a s'
           | (inr e, s') => (inr e, s')
           end.

Notation "x <- m ;; k" := (bind m (fun x => k))
  (at level 61, m at next level, right associativity).
Notation "m ;;; k" := (bind m (fun _ => k))
  (at level 61, right associativity).

(** [for i in l: acc = body(i, acc)] *)
Fixpoint for_ {A} (l : list nat) (body : nat -> A -> M A) (acc : A) : M A :=
  match l with
  | [] => ret acc
  | i :: l' => bind (body i acc) (for_ l' body)
  end.

(** ** numpy array operations on row lists *)

(** Item assignment [a[n] = v]; every index the code writes is in range. *)
Fixpoint upd {A} (l : list A) (n : nat) (v : A) : list A :=
  match l, n with
  | [], _ => []
  | _ :: t, 0 => v :: t
  | x :: t, S n' => x :: upd t n' v
  end.

(** [a[r, c]] and [a[r, c] = v] on a 2-d array. *)
Definition get2 (a : list (list Q)) (r c : nat) : Q := nth c (nth r a []) 0%Q.
Definition set2 (a : list (list Q)) (r c : nat) (v : Q) : list (list Q) :=
  upd a r (upd (nth r a []) c v).

(** [a[:, c]] *)
Definition column (a : list (list Q)) (c : nat) : list Q :=
  map (fun row => nth c row 0%Q) a.

(** [a[start:start+len(vs), c] = vs] *)
Fixpoint set_col_from (a : list (list Q)) (start c : nat) (vs : list Q)
  : list (list Q) :=
  match vs with
  | [] => a
  | v :: vs' => set_col_from (set2 a start c v) (S start) c vs'
  end.

(** [a[start:start+n, c] = v] (a scalar broadcast over [n] rows) *)
Definition set_range (a : list (list Q)) (start n c : nat) (v : Q) :=
  set_col_from a start c (repeat v n).

(** [np.roll(a, -4, axis=0)]: row [j] of the result is row [(j+4) mod n]. *)
Definition roll_m4 {A} (a : list A) : list A :=
  let k := 4 mod length a in skipn k a ++ firstn k a.

(** [input_chunk.reshape(-1, 2)] on the flat interleaved chunk. *)
Fixpoint reshape2 (l : list Q) : option (list (list Q)) :=
  match l with
  | [] => Some []
  | a :: b :: t => option_map (cons [a; b]) (reshape2 t)
  | [_] => None
  end.

(** [output.flatten()] of a row-major array *)
Definition flatten (a : list (list Q)) : list Q := concat a.

(** ** The interpolators of scipy.interpolate

    [CubicSpline], [Akima1DInterpolator] and [PchipInterpolator] are
    library code; the driver is parametric in them: [lib k xs ys] is the
    interpolator of kind [k] built on the nodes [xs, ys]; called on an
    array of points it is evaluated at each point. *)
Inductive spline_kind : Type :=
| CubicSpline | Akima1DInterpolator | PchipInterpolator.

Definition spline_lib : Type := spline_kind -> list Q -> list Q -> Q -> Q.

Definition x_points : list Q :=
  [1; 2; 3; 4; 5; 6; 7; 8; 9; 13; 17]%Q.
Definition x_new : list Q := [10; 11; 12]%Q.

(** Lines 67-74: the dispatch on [self.method]. *)
Definition select_interpolator (lib : spline_lib) (m : string)
  (xs ys : list Q) : M (Q -> Q) :=
  if String.eqb m "cubic" then ret (lib CubicSpline xs ys)
  else if String.eqb m "akima" then ret (lib Akima1DInterpolator xs ys)
  else if String.eqb m "pchip" then ret (lib PchipInterpolator xs ys)
  else raise (ValueError (String.append "Unknown interpolation method: " m)).

(** ** [interpolate_chunk] *)

(** One iteration of the inner loop (lines 45-95) for pair [i] of
    [channel]; the loop locals [output] and [output_idx] are threaded. *)
Definition pair_step (lib : spline_lib) (channel : nat)
  (input_samples : list (list Q)) (i : nat)
  (acc : list (list Q) * nat) : M (list (list Q) * nat) :=
  let '(output, output_idx) := acc in
  let cur := get2 input_samples i channel in
  self <- get ;;
  output <- (if String.eqb (method self) "repeat"
             then ret (set_range output output_idx 4 channel cur)
             else
               let y_points := column (previous_samples self) channel
                               ++ column (firstn 2 (skipn i input_samples)) channel in
               interpolator <- select_interpolator lib (method self) x_points y_points ;;
               let output := set_col_from output output_idx channel (map interpolator x_new) in
               ret (set2 output (output_idx + 3) channel cur)) ;;
  let output_idx := output_idx + 4 in
  self <- get ;;
  put {| previous_samples := roll_m4 (previous_samples self);
         chunk_end_sample := chunk_end_sample self;
         method := method self |} ;;;
  self <- get ;;
  let prev := previous_samples self in
  let last4 := length prev - 4 in
  let prev := if String.eqb (method self) "repeat"
              then set_range prev last4 4 channel cur
              else set_col_from prev last4 channel
                     (firstn 3 (skipn (output_idx - 4) (column output channel)) ++ [cur]) in
  put {| previous_samples := prev;
         chunk_end_sample := chunk_end_sample self;
         method := method self |} ;;;
  ret (output, output_idx).

(** One iteration of the outer loop (lines 40-97). *)
Definition channel_step (lib : spline_lib) (input_samples : list (list Q))
  (channel : nat) (output : list (list Q)) : M (list (list Q)) :=
  acc <- for_ (seq 0 (length input_samples - 1))
               (pair_step lib channel input_samples) (output, 0%nat) ;;
  self <- get ;;
  put {| previous_samples := previous_samples self;
         chunk_end_sample :=
           upd (chunk_end_sample self) channel
               (get2 input_samples (length input_samples - 1) channel);
         method := method self |} ;;;
  ret (fst acc).

(** [str(n)] of a non-negative int. *)
Fixpoint string_of_nat_aux (fuel n : nat) (acc : string) : string :=
  match fuel with
  | O => acc
  | S fuel' =>
      let acc' := String (ascii_of_nat (48 + n mod 10)) acc in
      if n <? 10 then acc' else string_of_nat_aux fuel' (n / 10) acc'
  end.
Definition string_of_nat (n : nat) : string := string_of_nat_aux (S n) n "".

(** The text of numpy's [ValueError] for [a.reshape(-1, 2)] on a
    one-dimensional array of odd size [size]. *)
Definition reshape_msg (size : nat) : string :=
  String.append "cannot reshape array of size "
    (String.append (string_of_nat size) " into shape (2)").

Definition interpolate_chunk (lib : spline_lib) (input_chunk : list Q) : M (list Q) :=
  if Nat.eqb (length input_chunk) 0 then ret [] else
  self <- get ;;
  frames <- match reshape2 input_chunk with
            | Some f => ret f
            | None => raise (ValueError (reshape_msg (length input_chunk)))
            end ;;
  let input_samples := chunk_end_sample self :: frames in
  let output_len := ((length input_samples - 1) * 4)%nat in
  output <- for_ (seq 0 channels) (channel_step lib input_samples)
                 (zeros output_len channels) ;;
  ret (flatten output).

(** The caller's loop ([AudioUpscaler.process_file]): the chunks are fed
    in order and the outputs written one after the other. *)
Fixpoint process_stream (lib : spline_lib) (chunks : list (list Q)) : M (list Q) :=
  match chunks with
  | [] => ret []
  | c :: cs =>
      out <- interpolate_chunk lib c ;;
      rest <- process_stream lib cs ;;
      ret (out ++ rest)
  end.

(** ** [scipy.interpolate.PchipInterpolator] over exact rationals

    The derivative rule of [_find_derivatives] and [_edge_case], and the
    cubic Hermite piece of [CubicHermiteSpline], evaluated in the interval
    found as [PPoly] finds it. *)
Module Pchip.

(** [np.sign] *)
Definition qsign (q : Q) : Z :=
  if Qeq_bool q 0 then 0%Z else if Qle_bool q 0 then (-1)%Z else 1%Z.

(** [np.diff] *)
Fixpoint diff (l : list Q) : list Q :=
  match l with
  | a :: ((b :: _) as t) => (b - a)%Q :: diff t
  | _ => []
  end.

Definition edge_case (h0 h1 m0 m1 : Q) : Q :=
  let d := Qred ((((2 * h0 + h1) * m0 - h0 * m1) / (h0 + h1))%Q) in
  let mask := negb (Z.eqb (qsign d) (qsign m0)) in
  let mask2 := negb (Z.eqb (qsign m0) (qsign m1))
               && negb (Qle_bool (Qabs d) (3 * Qabs m0)) in
  if mask then 0%Q
  else if mask2 then (3 * m0)%Q
  else d.

(** The derivative at the interior node [k], from the two adjacent
    intervals [k-1] and [k]. *)
Definition interior (hk mk : list Q) (k : nat) : Q :=
  let h0 := nth (k - 1) hk 0%Q in let h1 := nth k hk 0%Q in
  let m0 := nth (k - 1) mk 0%Q in let m1 := nth k mk 0%Q in
  let condition := negb (Z.eqb (qsign m1) (qsign m0))
                   || Qeq_bool m1 0 || Qeq_bool m0 0 in
  if condition then 0%Q
  else
    let w1 := (2 * h1 + h0)%Q in
    let w2 := (h1 + 2 * h0)%Q in
    let whmean := ((w1 / m0 + w2 / m1) / (w1 + w2))%Q in
    Qred (/ whmean)%Q.

Definition find_derivatives (x y : list Q) : list Q :=
  let hk := diff x in
  let mk := map (fun '(dy, h) => Qred (dy / h)%Q) (combine (diff y) hk) in
  let n := length y in
  if Nat.eqb n 2 then repeat (nth 0 mk 0%Q) n
  else
    edge_case (nth 0 hk 0%Q) (nth 1 hk 0%Q) (nth 0 mk 0%Q) (nth 1 mk 0%Q)
    :: map (interior hk mk) (seq 1 (n - 2))
    ++ [edge_case (nth (n - 2) hk 0%Q) (nth (n - 3) hk 0%Q)
                  (nth (n - 2) mk 0%Q) (nth (n - 3) mk 0%Q)].

(** The interval of [x]: the number of inner breakpoints at or below it. *)
Definition find_interval (x : list Q) (v : Q) : nat :=
  length (filter (fun xi => Qle_bool xi v) (firstn (length x - 2) (tl x))).

(** [PPoly] evaluation of the Hermite piece on interval [k]. *)
Definition eval_at (x y dydx : list Q) (v : Q) : Q :=
  let k := find_interval x v in
  let xk := nth k x 0%Q in
  let dx := (nth (S k) x 0%Q - xk)%Q in
  let yk := nth k y 0%Q in
  let slope := ((nth (S k) y 0%Q - yk) / dx)%Q in
  let d0 := nth k dydx 0%Q in
  let d1 := nth (S k) dydx 0%Q in
  let t := ((d0 + d1 - 2 * slope) / dx)%Q in
  let c0 := (t / dx)%Q in
  let c1 := ((slope - d0) / dx - t)%Q in
  let s := (v - xk)%Q in
  Qred (c0 * s * s * s + c1 * s * s + d0 * s + yk)%Q.

Definition PchipInterpolator (x y : list Q) : Q -> Q :=
  let dydx := find_derivatives x y in
  eval_at x y dydx.

End Pchip.

(** A library whose [PchipInterpolator] is the model above. *)
Definition lib_with_pchip (cubic akima : list Q -> list Q -> Q -> Q)
  : spline_lib :=
  fun k => match k with
           | CubicSpline => cubic
           | Akima1DInterpolator => akima
           | PchipInterpolator => Pchip.PchipInterpolator
           end.

(** The values of the [Literal['cubic', 'akima', 'pchip', 'repeat']]
    annotation of [__init__]'s [method] parameter. *)
Definition method_literal (m : string) : bool :=
  String.eqb m "cubic" || String.eqb m "akima"
  || String.eqb m "pchip" || String.eqb m "repeat".

(** Every row of a 2-d array has [w] columns. *)
Definition rect (a : list (list Q)) (w : nat) : Prop :=
  Forall (fun row => length row = w) a.

(** * The driver: [src/wav_handler.py], [src/audio_upscaler.py] and [src/main.py] *)

(** ** [src/wav_handler.py]: samples to and from bytes *)

(** An unsigned byte value. *)
Definition u8 (b : Byte.byte) : Z := Z.of_N (Byte.to_N b).

(** The low 8 bits of a two's-complement integer, as [view(np.uint8)]
    takes them. *)
Definition byte_of_Z (z : Z) : Byte.byte :=
  match Byte.of_N (Z.to_N (Z.land z 255)) with
  | Some b => b
  | None => Byte.x00
  end.

(** One little-endian int16 of [np.frombuffer(..., dtype=np.int16)] on a
    little-endian machine. *)
Definition int16_of (lo hi : Byte.byte) : Z :=
  let u := (u8 lo + 256 * u8 hi)%Z in
  if (u <? 32768)%Z then u else (u - 65536)%Z.

(** [np.frombuffer(frames, dtype=np.int16)]: [None] when the buffer size
    is not a multiple of 2 (numpy raises [ValueError]). *)
Fixpoint frombuffer_int16 (bs : list Byte.byte) : option (list Z) :=
  match bs with
  | [] => Some []
  | lo :: hi :: t => option_map (cons (int16_of lo hi)) (frombuffer_int16 t)
  | [_] => None
  end.

(** [WavHandler.read_wav_chunk], given the bytes [frames] that
    [wav_file.readframes(chunk_size)] returned. *)
Definition read_wav_chunk (frames : list Byte.byte) : list Q + py_error :=
  match frames with
  | [] => inl []
  | _ =>
      match frombuffer_int16 frames with
      | Some zs => inl (map (fun z => (inject_Z z * 256)%Q) zs)
      | None => inr (ValueError "buffer size must be a multiple of element size")
      end
  end.

(** [np.clip(x, lo, hi)]: [minimum(maximum(x, lo), hi)]. *)
Definition np_clip (x lo hi : Q) : Q :=
  let m := if Qle_bool lo x then x else lo in
  if Qle_bool m hi then m else hi.

(** [.astype(np.int32)] of a float in the int32 range: truncation toward
    zero. *)
Definition to_int32 (x : Q) : Z := Z.quot (Qnum x) (Zpos (Qden x)).

(** [WavHandler.write_wav_chunk]: the bytes handed to [writeframes]; of
    the four little-endian bytes of each int32, [bytes_view[:, 0:3]]
    keeps bytes 0, 1 and 2. *)
Definition write_wav_chunk (chunk : list Q) : list Byte.byte :=
  concat (map (fun x =>
    let v := to_int32 (np_clip x (-8388608) 8388607) in
    [byte_of_Z v; byte_of_Z (Z.shiftr v 8); byte_of_Z (Z.shiftr v 16)]) chunk).

(** The signed little-endian 24-bit value of three bytes, as a WAV reader
    decodes one sample of the output file. *)
Definition decode24 (b0 b1 b2 : Byte.byte) : Z :=
  let u := (u8 b0 + 256 * u8 b1 + 65536 * u8 b2)%Z in
  if (u <? 8388608)%Z then u else (u - 16777216)%Z.


(** ** [WavHandler.validate_wav_file] *)


(** [n / d] rounded to an integer, ties to even ([d > 0]). *)
Definition round_half_even (n d : Z) : Z :=
  let q := (n / d)%Z in
  let r := (n mod d)%Z in
  if (2 * r <? d)%Z then q
  else if (d <? 2 * r)%Z then (q + 1)%Z
  else if Z.even q then q else (q + 1)%Z.

(** The float64 nearest to [n / d] ([n, d > 0]), as [(m, s)] with value
    [m / 2^s] and [2^52 <= m <= 2^53]: Python's true division of ints is
    correctly rounded. *)
Definition double_of_ratio (n d : Z) : Z * Z :=
  let L := (Z.log2 n - Z.log2 d)%Z in
  let k := if (0 <=? L)%Z
           then (if (d * 2 ^ L <=? n)%Z then L else L - 1)%Z
           else (if (d <=? n * 2 ^ (- L))%Z then L else L - 1)%Z in
  let s := (52 - k)%Z in
  (round_half_even (n * 2 ^ Z.max s 0) (d * 2 ^ Z.max (- s) 0), s).

(** [f"{rate / 1000:.1f}"]: the float64 quotient, printed with one decimal,
    correctly rounded with ties to even as Python's float formatting does. *)
Definition format_khz (rate : nat) : string :=
  if Nat.eqb rate 0 then "0.0"%string else
  let '(m, s) := double_of_ratio (Z.of_nat rate) 1000 in
  let tenths := round_half_even (m * 10 * 2 ^ Z.max (- s) 0) (2 ^ Z.max s 0) in
  String.append (string_of_nat (Z.to_nat (tenths / 10)))
    (String "."%char (string_of_nat (Z.to_nat (tenths mod 10)))).

(** What [wave.open(filename, 'rb')] reads: the format fields of the
    header and the bytes of the data chunk. *)
Record wav_params : Type := mk_wav_params {
  nchannels : nat;
  sampwidth : nat;
  framerate : nat
}.

Record wav_file : Type := mk_wav_file {
  params : wav_params;
  frames_data : list Byte.byte
}.

(** [validate_wav_file(filename, expected_rate, expected_width)], given the
    outcome of [wave.open(filename, 'rb')]: the file, or the text of the
    exception it raised.  The [print] calls of the valid case write to
    standard output only. *)
Definition validate_wav_file (opened : wav_file + string)
  (expected_rate expected_width : nat) : bool * string :=
  match opened with
  | inr e => (false, String.append "Error validating file: " e)
  | inl w =>
      if negb (Nat.eqb (nchannels (params w)) 2) then
        (false, "File must be stereo (2 channels)"%string)
      else if negb (Nat.eqb expected_width 0)
              && negb (Nat.eqb (sampwidth (params w)) expected_width) then
        (false, String.append "File must be "
                  (String.append (string_of_nat (expected_width * 8)) "bit"))
      else if negb (Nat.eqb (framerate (params w)) expected_rate) then
        (false, String.append "File must be "
                  (String.append (format_khz expected_rate) "kHz"))
      else (true, "Valid WAV file"%string)
  end.

(** ** [AudioUpscaler.process_file] *)

(** The file system as [process_file] sees it: what [wave.open(name,
    'rb')] returns (or the text of its exception); whether
    [wave.open(name, 'wb')] succeeds ([None]) or raises ([Some text]);
    whether [wave.open(name, 'rb')] on the file this run has just written
    and closed succeeds ([None]) or raises ([Some text]), for instance when
    that file cannot be read back; and whether [os.remove(name)] succeeds
    or raises.  The output names a file other than the input, and the
    writes to an output file that opened succeed. *)
Record wav_env : Type := mk_wav_env {
  open_rb : string -> wav_file + string;
  open_wb : string -> option string;
  reopen_rb : string -> option string;
  remove_file : string -> option string
}.

(** The exceptions the body of [process_file] can raise; [str(e)] is
    [exn_str e]. *)
Inductive exn : Type :=
| PyError (e : py_error)
| ZeroDivisionError
| OtherError (msg : string).

Definition exn_str (e : exn) : string :=
  match e with
  | PyError (ValueError m) => m
  | ZeroDivisionError => "division by zero"
  | OtherError m => m
  end.

(** The state of the driver: the upscaler's [AudioInterpolator], and the
    file at [output_filename] as this run has made it: [None] before
    [wave.open(output_filename, 'wb')] succeeds and after [os.remove],
    otherwise [Some] of the data bytes passed to [writeframes] so far (the
    header [wave] writes in front of them carries the parameters set in
    [setup_output_wav]).  A [Wave_write] left open by an exception is
    closed when [process_file] returns, which keeps what was written. *)
Record drv_state : Type := mk_drv {
  interpolator : AudioInterpolator;
  out_file : option (list Byte.byte)
}.

Definition D (A : Type) : Type :=
  drv_state -> (A + exn) * drv_state.

Definition retD {A} (a : A) : D A := fun s => (inl a, s).
Definition raiseD {A} (e : exn) : D A := fun s => (inr e, s).
Definition bindD {A B} (m : D A) (k : A -> D B) : D B :=
  fun s => match m s with
           | (inl a, s') => k a s'
           | (inr e, s') => (inr e, s')
           end.
Definition getD : D AudioInterpolator := fun s => (inl (interpolator s), s).
Definition putD (s' : AudioInterpolator) : D unit :=
  fun s => (inl tt, mk_drv s' (out_file s)).

(** A call into [AudioInterpolator] from the driver. *)
Definition liftD {A} (m : M A) : D A :=
  fun s => match m (interpolator s) with
           | (inl a, s') => (inl a, mk_drv s' (out_file s))
           | (inr e, s') => (inr (PyError e), mk_drv s' (out_file s))
           end.

(** A function of [wav_handler] returning a value or raising. *)
Definition liftR {A} (r : A + py_error) : D A :=
  match r with inl a => retD a | inr e => raiseD (PyError e) end.

(** [wave.open(output_filename, 'wb')] once it has succeeded: an empty
    file. *)
Definition create_output : D unit :=
  fun s => (inl tt, mk_drv (interpolator s) (Some [])).

(** [output_wav.writeframes(bs)]. *)
Definition writeframes (bs : list Byte.byte) : D unit :=
  fun s => (inl tt, mk_drv (interpolator s)
                      (match out_file s with
                       | Some d => Some (d ++ bs)
                       | None => None
                       end)).

(** The data chunk of the output file as written. *)
Definition output_data : D (list Byte.byte) :=
  fun s => (inl (match out_file s with Some d => d | None => [] end), s).

(** [os.remove(output_filename)]. *)
Definition remove_output (e : wav_env) (out : string) : D unit :=
  match remove_file e out with
  | None => fun s => (inl tt, mk_drv (interpolator s) None)
  | Some m => raiseD (OtherError m)
  end.

Notation "x <~ m ;; k" := (bindD m (fun x => k))
  (at level 61, m at next level, right associativity).
Notation "m ;;~ k" := (bindD m (fun _ => k))
  (at level 61, right associativity).

(** [WavHandler.__init__]: [self.channels = 2], [self.sampwidth = 3]. *)
Definition wh_channels : nat := 2.
Definition wh_sampwidth : nat := 3.

(** [AudioUpscaler.__init__]: [self.chunk_size = 1024]. *)
Definition chunk_size : nat := 1024.

(** [wave]'s frame size and [getnframes()] of a file opened for reading. *)
Definition framesize (p : wav_params) : nat := nchannels p * sampwidth p.
Definition get_total_frames (w : wav_file) : nat :=
  length (frames_data w) / framesize (params w).

(** [setup_output_wav(input_filename, output_filename)]: the input file and
    the parameters set on the output file; [setframerate] raises
    [wave.Error('bad frame rate')] on a non-positive rate. *)
Definition setup_output_wav (e : wav_env) (inp out : string)
  : D (wav_file * wav_params) :=
  input_wav <~ (match open_rb e inp with
                | inl w => retD w
                | inr m => raiseD (OtherError m)
                end) ;;
  (match open_wb e out with
   | None => create_output
   | Some m => raiseD (OtherError m)
   end) ;;~
  let rate := framerate (params input_wav) * 4 in
  (if Nat.eqb rate 0 then raiseD (OtherError "bad frame rate") else retD tt) ;;~
  retD (input_wav, {| nchannels := wh_channels; sampwidth := wh_sampwidth;
                      framerate := rate |}).

(** [_update_progress(current, total)]: apart from what it prints, its only
    effect is the [ZeroDivisionError] of [current / total]. *)
Definition update_progress (current total : nat) : D unit :=
  if Nat.eqb total 0 then raiseD ZeroDivisionError else retD tt.

(** The [while True] loop of [process_file]: [rest] is the part of the data
    chunk not read yet, [readframes(chunk_size)] returns its first
    [chunk_size * framesize] bytes.  Each iteration that does not stop
    consumes at least one byte, so [fuel = S (length rest)] is never
    exhausted ([upscale_loop_fuel]). *)
Fixpoint upscale_loop (lib : spline_lib) (fuel fsize total : nat)
  (rest : list Byte.byte) (processed_frames : nat) : D unit :=
  match fuel with
  | O => retD tt
  | S fuel' =>
      let n := chunk_size * fsize in
      input_chunk <~ liftR (read_wav_chunk (firstn n rest)) ;;
      if Nat.eqb (length input_chunk) 0 then retD tt else
      output_chunk <~ liftD (interpolate_chunk lib input_chunk) ;;
      writeframes (write_wav_chunk output_chunk) ;;~
      let processed_frames := processed_frames + length input_chunk / 2 in
      update_progress processed_frames total ;;~
      upscale_loop lib fuel' fsize total (skipn n rest) processed_frames
  end.

(** The body of the [try] of [process_file]. *)
Definition process_body (lib : spline_lib) (e : wav_env) (inp out : string)
  : D (bool * string) :=
  io <~ setup_output_wav e inp out ;;
  let '(input_wav, out_params) := io in
  let total_frames := get_total_frames input_wav in
  self <~ getD ;;
  putD (reset self) ;;~
  upscale_loop lib (S (length (frames_data input_wav)))
    (framesize (params input_wav)) total_frames (frames_data input_wav) 0 ;;~
  written <~ output_data ;;
  let reopened := match reopen_rb e out with
                  | None => inl {| params := out_params; frames_data := written |}
                  | Some m => inr m
                  end in
  let '(valid, verify_message) := validate_wav_file reopened 176400 3 in
  if negb valid then
    remove_output e out ;;~
    retD (false, String.append "Output file verification failed: " verify_message)
  else retD (true, "File processed successfully"%string).

(** [AudioUpscaler.process_file(input_filename, output_filename)] on an
    upscaler whose interpolator is [self]: the returned pair, what the call
    leaves at [output_filename] (the data chunk of the WAV file it wrote,
    [None] when it created none or removed it), and the interpolator
    afterwards. *)
Definition process_file (lib : spline_lib) (e : wav_env) (inp out : string)
  (self : AudioInterpolator)
  : ((bool * string) * option (list Byte.byte)) * AudioInterpolator :=
  let '(valid, message) := validate_wav_file (open_rb e inp) 44100 2 in
  if negb valid then (((false, message), None), self) else
  match process_body lib e inp out (mk_drv self None) with
  | (inl r, st) => ((r, out_file st), interpolator st)
  | (inr ex, st) =>
      (((false, String.append "Error processing file: " (exn_str ex)), out_file st),
       interpolator st)
  end.

(** ** [main.py] *)



(** [posixpath.dirname]. *)
Fixpoint last_sep_end (l : list ascii) (pos best : nat) : nat :=
  match l with
  | [] => best
  | c :: t => last_sep_end t (S pos) (if Ascii.eqb c "/"%char then S pos else best)
  end.

Definition is_sep (c : ascii) : bool := Ascii.eqb c "/"%char.

Fixpoint drop_seps (l : list ascii) : list ascii :=
  match l with
  | c :: t => if is_sep c then drop_seps t else l
  | [] => []
  end.

Definition dirname (p : string) : string :=
  let l := list_ascii_of_string p in
  let head := firstn (last_sep_end l 0 0) l in
  let head := if negb (Nat.eqb (length head) 0) && negb (forallb is_sep head)
              then rev (drop_seps (rev head)) else head in
  string_of_list_ascii head.

(** [os.path.dirname(output_file) or '.'] *)
Definition output_dir_of (output_file : string) : string :=
  let d := dirname output_file in
  if String.eqb d "" then "."%string else d.



(** Inputs for the examples below: a valid 16-bit stereo 44.1 kHz file of
    two frames, the same header over 6 bytes, and file systems where the
    input opens as such a file, the output opens for writing and reads
    back, and [os.remove] succeeds. *)
Definition sample_wav : wav_file :=
  {| params := {| nchannels := 2; sampwidth := 2; framerate := 44100 |};
     frames_data := [Byte.x10; Byte.x00; Byte.x20; Byte.x00;
                     Byte.x30; Byte.x00; Byte.x40; Byte.x00] |}.


Definition sample_env (w : wav_file) : wav_env :=
  {| open_rb := fun _ => inl w; open_wb := fun _ => None;
     reopen_rb := fun _ => None; remove_file := fun _ => None |}.


(** A file system where the output opens for writing but the file written
    cannot be opened again for reading (a file of mode 0o200, say). *)
Definition unreadable_env (w : wav_file) : wav_env :=
  {| open_rb := fun _ => inl w; open_wb := fun _ => None;
     reopen_rb := fun _ => Some "[Errno 13] Permission denied: 'out.wav'"%string;
     remove_file := fun _ => None |}.

(** [widen16 bs]: each little-endian 16-bit sample [lo, hi] of [bs] becomes
    the 24-bit little-endian sample [0, lo, hi]. *)
Fixpoint widen16 (bs : list Byte.byte) : list Byte.byte :=
  match bs with
  | lo :: hi :: t => Byte.x00 :: lo :: hi :: widen16 t
  | _ => []
  end.

(** Sample [k] of the bytes [w] written for a chunk, decoded as a signed
    little-endian 24-bit value. *)
Definition decode24_at (w : list Byte.byte) (k : nat) : Z :=
  decode24 (nth (3 * k) w Byte.x00) (nth (3 * k + 1) w Byte.x00) (nth (3 * k + 2) w Byte.x00).

Definition sample_bytes (x : Q) : list Byte.byte :=
  let v := to_int32 (np_clip x (-8388608) 8388607) in
  [byte_of_Z v; byte_of_Z (Z.shiftr v 8); byte_of_Z (Z.shiftr v 16)].

(** The shape of the chunks the loop reads: [chunk_size] frames each,
    except the last, which holds between one and [chunk_size] frames. *)
Definition chunk_shape (chunks : list (list Q)) : Prop :=
  Forall (fun c => 0 < length c <= 2 * chunk_size /\ Nat.even (length c) = true) chunks /\
  Forall (fun c => length c = 2 * chunk_size) (removelast chunks).


(** * Lemmas on the array operations *)

Lemma upd_length {A} (l : list A) n v : length (upd l n v) = length l.
Proof. revert n; induction l as [|x l IH]; intros [|n]; simpl; auto. Qed.

Lemma upd_oob {A} (l : list A) n v : length l <= n -> upd l n v = l.
Proof.
  revert n; induction l as [|x l IH]; intros [|n] H; simpl in *; auto; try lia.
  rewrite IH; auto; lia.
Qed.

Lemma nth_upd_same {A} (l : list A) n v d : n < length l -> nth n (upd l n v) d = v.
Proof.
  revert n; induction l as [|x l IH]; intros [|n] H; simpl in *; auto; try lia.
  all: apply IH; lia.
Qed.

Lemma nth_upd_other {A} (l : list A) n k v d : k <> n -> nth k (upd l n v) d = nth k l d.
Proof.
  revert n k; induction l as [|x l IH]; intros [|n] [|k] H; simpl; auto; try lia.
  all: apply IH; lia.
Qed.

Lemma Forall_upd {A} (P : A -> Prop) (l : list A) n v :
  Forall P l -> (n < length l -> P v) -> Forall P (upd l n v).
Proof.
  revert n; induction l as [|x l IH]; intros [|n] H Hv; simpl in *; auto;
    inversion H; subst.
  - constructor; auto. apply Hv; lia.
  - constructor; auto. apply IH; auto. intro; apply Hv; lia.
Qed.

Lemma rect_row (a : list (list Q)) w r : rect a w -> r < length a -> length (nth r a []) = w.
Proof.
  intros Ha Hr. unfold rect in Ha. rewrite Forall_forall in Ha.
  apply Ha, nth_In; auto.
Qed.

Lemma set2_length a r c v : length (set2 a r c v) = length a.
Proof. apply upd_length. Qed.

Lemma set2_rect a w r c v : rect a w -> rect (set2 a r c v) w.
Proof.
  intros Ha. apply Forall_upd; auto. intro Hr.
  rewrite upd_length. apply rect_row; auto.
Qed.

Lemma get2_set2_same a w r c v :
  rect a w -> r < length a -> c < w -> get2 (set2 a r c v) r c = v.
Proof.
  intros Ha Hr Hc. unfold get2, set2.
  rewrite nth_upd_same by auto. apply nth_upd_same.
  rewrite (rect_row a w r); auto.
Qed.

Lemma get2_set2_other a r c v r' c' :
  r' <> r \/ c' <> c -> get2 (set2 a r c v) r' c' = get2 a r' c'.
Proof.
  intros H. unfold get2, set2.
  destruct (Nat.eq_dec r' r) as [->|Hne].
  - destruct (Nat.lt_ge_cases r (length a)) as [Hr|Hr].
    + rewrite nth_upd_same by auto. apply nth_upd_other. lia.
    + rewrite upd_oob by auto. reflexivity.
  - rewrite nth_upd_other by auto. reflexivity.
Qed.

Lemma set_col_from_length a start c vs : length (set_col_from a start c vs) = length a.
Proof.
  revert a start; induction vs as [|v vs IH]; intros a start; simpl; auto.
  rewrite IH. apply set2_length.
Qed.

Lemma set_col_from_rect a w start c vs : rect a w -> rect (set_col_from a start c vs) w.
Proof.
  revert a start; induction vs as [|v vs IH]; intros a start Ha; simpl; auto.
  apply IH, set2_rect; auto.
Qed.

Lemma get2_set_col_from_other a start c vs r c' :
  c' <> c \/ r < start \/ start + length vs <= r ->
  get2 (set_col_from a start c vs) r c' = get2 a r c'.
Proof.
  revert a start; induction vs as [|v vs IH]; intros a start H; simpl in *; auto.
  rewrite IH by lia. apply get2_set2_other. lia.
Qed.

Lemma get2_set_col_from_in a w start c vs r :
  rect a w -> c < w -> start <= r < start + length vs -> r < length a ->
  get2 (set_col_from a start c vs) r c = nth (r - start) vs 0%Q.
Proof.
  revert a start; induction vs as [|v vs IH]; intros a start Ha Hc Hr Hlen;
    simpl in *; try lia.
  destruct (Nat.eq_dec r start) as [->|Hne].
  - rewrite get2_set_col_from_other by lia.
    rewrite Nat.sub_diag. eapply get2_set2_same; eauto.
  - rewrite (IH _ _ (set2_rect a w start c v Ha)); auto; try lia.
    + replace (r - start) with (S (r - S start)) by lia. reflexivity.
    + rewrite set2_length; auto.
Qed.

Lemma nth_repeat_lt {A} (x d : A) n k : k < n -> nth k (repeat x n) d = x.
Proof.
  revert k; induction n as [|n IH]; intros [|k] H; simpl; auto; try lia.
  apply IH; lia.
Qed.

Lemma rect_zeros r c : rect (zeros r c) c.
Proof.
  unfold rect, zeros. apply Forall_forall. intros row Hin.
  apply repeat_spec in Hin. subst. apply repeat_length.
Qed.

(** * Lemmas on the monad *)

Lemma for_seq_inv {A} (I : nat -> A -> AudioInterpolator -> Prop)
  (body : nat -> A -> M A) :
  forall n k acc s,
  (forall i acc s, k <= i < k + n -> I i acc s ->
     exists acc' s', body i acc s = (inl acc', s') /\ I (S i) acc' s') ->
  I k acc s ->
  exists acc' s', for_ (seq k n) body acc s = (inl acc', s') /\ I (k + n) acc' s'.
Proof.
  induction n as [|n IH]; intros k acc s Hstep HI.
  - exists acc, s. rewrite Nat.add_0_r. split; auto.
  - simpl. destruct (Hstep k acc s) as (acc1 & s1 & E1 & HI1); [lia|auto|].
    unfold bind. rewrite E1.
    destruct (IH (S k) acc1 s1) as (acc2 & s2 & E2 & HI2); auto.
    + intros i acc' s' Hi; apply Hstep; lia.
    + exists acc2, s2. split; auto. replace (k + S n) with (S k + n) by lia. auto.
Qed.

Lemma select_interpolator_ok lib m :
  method_literal m = true -> String.eqb m "repeat" = false ->
  exists k, forall xs ys s, select_interpolator lib m xs ys s = (inl (lib k xs ys), s).
Proof.
  unfold method_literal, select_interpolator. intros H Hr.
  rewrite Hr, orb_false_r in H.
  destruct (String.eqb m "cubic"); [exists CubicSpline; reflexivity|].
  destruct (String.eqb m "akima"); [exists Akima1DInterpolator; reflexivity|].
  destruct (String.eqb m "pchip"); [exists PchipInterpolator; reflexivity|].
  discriminate.
Qed.

(** * One frame pair *)

(** What one iteration of the inner loop leaves in [output] for pair [i]
    of [ch]: the 4th sample of its block is [input_samples[i, ch]], and
    under ['repeat'] all four are. *)
Definition block_ok (m : string) (inp : list (list Q)) (ch i : nat)
  (out : list (list Q)) : Prop :=
  get2 out (4 * i + 3) ch = get2 inp i ch /\
  (String.eqb m "repeat" = true ->
   forall t, t < 4 -> get2 out (4 * i + t) ch = get2 inp i ch).

Lemma pair_step_effect lib ch inp i out idx s :
  method_literal (method s) = true -> rect out 2 -> ch < 2 ->
  idx + 4 <= length out ->
  exists out' s',
    pair_step lib ch inp i (out, idx) s = (inl (out', idx + 4), s') /\
    method s' = method s /\ chunk_end_sample s' = chunk_end_sample s /\
    length out' = length out /\ rect out' 2 /\
    (forall r c, c <> ch \/ r < idx \/ idx + 4 <= r -> get2 out' r c = get2 out r c) /\
    get2 out' (idx + 3) ch = get2 inp i ch /\
    (String.eqb (method s) "repeat" = true ->
     forall t, t < 4 -> get2 out' (idx + t) ch = get2 inp i ch).
Proof.
  intros Hm Hrect Hch Hlen.
  unfold pair_step, bind, get, put, ret; cbn -[set_range set_col_from set2 roll_m4 column select_interpolator].
  destruct (String.eqb (method s) "repeat") eqn:Hr.
  - eexists _, _; split; [reflexivity|]. cbn [method chunk_end_sample previous_samples].
    unfold set_range.
    repeat split; auto.
    + apply set_col_from_length.
    + apply set_col_from_rect; auto.
    + intros r c Hrc. apply get2_set_col_from_other.
      rewrite repeat_length; lia.
    + rewrite (get2_set_col_from_in out 2) by first [assumption | rewrite ?repeat_length; lia].
      apply nth_repeat_lt; lia.
    + intros _ t Ht.
      rewrite (get2_set_col_from_in out 2) by first [assumption | rewrite ?repeat_length; lia].
      apply nth_repeat_lt; lia.
  - destruct (select_interpolator_ok lib (method s) Hm Hr) as [k Hk].
    rewrite Hk. cbn -[set_range set_col_from set2 roll_m4 column].
    eexists _, _; split; [reflexivity|]. cbn [method chunk_end_sample previous_samples].
    assert (Hr1 : rect (set_col_from out idx ch (map (lib k x_points
       (column (previous_samples s) ch ++ column (firstn 2 (skipn i inp)) ch)) x_new)) 2)
      by (apply set_col_from_rect; auto).
    repeat split; auto.
    + rewrite set2_length. apply set_col_from_length.
    + apply set2_rect; auto.
    + intros r c Hrc. rewrite get2_set2_other by lia.
      apply get2_set_col_from_other. rewrite ?length_map. simpl. lia.
    + eapply get2_set2_same; eauto.
      rewrite set_col_from_length; lia.
    + discriminate.
Qed.

(** * The loops *)

Lemma pair_loop_effect lib ch inp n o s :
  method_literal (method s) = true -> rect o 2 -> ch < 2 -> length o = 4 * n ->
  exists o' s',
    for_ (seq 0 n) (pair_step lib ch inp) (o, 0) s = (inl (o', 4 * n), s') /\
    method s' = method s /\ chunk_end_sample s' = chunk_end_sample s /\
    length o' = length o /\ rect o' 2 /\
    (forall r c, c <> ch -> get2 o' r c = get2 o r c) /\
    (forall j, j < n -> block_ok (method s) inp ch j o').
Proof.
  intros Hm Hrect Hch Hlen.
  set (I := fun i (acc : list (list Q) * nat) (s' : AudioInterpolator) =>
        snd acc = 4 * i /\ method s' = method s /\
        chunk_end_sample s' = chunk_end_sample s /\
        length (fst acc) = length o /\ rect (fst acc) 2 /\
        (forall r c, c <> ch -> get2 (fst acc) r c = get2 o r c) /\
        (forall j, j < i -> block_ok (method s) inp ch j (fst acc))).
  destruct (for_seq_inv I (pair_step lib ch inp) n 0 (o, 0) s)
    as ([o' idx'] & s' & E & HI).
  - intros i [out idx] s1 Hi (Hidx & Hm1 & Hce1 & Hl1 & Hr1 & Hoth1 & Hblk1).
    cbn [fst snd] in *. subst idx.
    destruct (pair_step_effect lib ch inp i out (4 * i) s1)
      as (out' & s2 & E2 & Hm2 & Hce2 & Hl2 & Hr2 & Hoth2 & H3 & Hrep);
      try rewrite Hm1; auto; try lia.
    exists (out', 4 * i + 4), s2. split; [exact E2|].
    unfold I; cbn [fst snd].
    split; [lia|]. split; [congruence|]. split; [congruence|].
    split; [congruence|]. split; [exact Hr2|]. split.
    + intros r c Hc. rewrite Hoth2 by auto. auto.
    + intros j Hj. destruct (Nat.eq_dec j i) as [->|Hne].
      * split; auto. rewrite <- Hm1. auto.
      * destruct (Hblk1 j) as [B3 Brep]; [lia|]. split.
        -- rewrite Hoth2 by (right; left; lia). auto.
        -- intros Hrp t Ht. rewrite Hoth2 by (right; left; lia). auto.
  - unfold I; cbn [fst snd]. repeat split; auto; intros; lia.
  - destruct HI as (Hidx & Hm' & Hce' & Hl' & Hr' & Hoth' & Hblk').
    cbn [fst snd] in *. subst idx'. rewrite Nat.add_0_l in *.
    exists o', s'. split; [exact E|]. do 5 (split; [assumption|]).
    intros j Hj. apply Hblk'. lia.
Qed.

Lemma channel_step_effect lib inp ch o s :
  method_literal (method s) = true -> rect o 2 -> ch < 2 ->
  length o = 4 * (length inp - 1) ->
  exists o' s',
    channel_step lib inp ch o s = (inl o', s') /\
    method s' = method s /\
    chunk_end_sample s' =
      upd (chunk_end_sample s) ch (get2 inp (length inp - 1) ch) /\
    length o' = length o /\ rect o' 2 /\
    (forall r c, c <> ch -> get2 o' r c = get2 o r c) /\
    (forall j, j < length inp - 1 -> block_ok (method s) inp ch j o').
Proof.
  intros Hm Hrect Hch Hlen.
  destruct (pair_loop_effect lib ch inp (length inp - 1) o s)
    as (o' & s' & E & Hm' & Hce' & Hl' & Hr' & Hoth' & Hblk'); auto.
  unfold channel_step, bind, get, put, ret. rewrite E. cbn.
  eexists _, _; split; [reflexivity|]. cbn.
  rewrite Hce'. repeat (split; [solve [auto]|]). exact Hblk'.
Qed.

(** The whole call on a chunk that reshapes into [frames]: the working
    sequence is [chunk_end_sample :: frames]. *)
Lemma interpolate_chunk_effect lib chunk frames s :
  method_literal (method s) = true -> chunk <> [] ->
  reshape2 chunk = Some frames ->
  exists o s',
    interpolate_chunk lib chunk s = (inl (flatten o), s') /\
    method s' = method s /\
    length o = 4 * length frames /\ rect o 2 /\
    length (chunk_end_sample s') = length (chunk_end_sample s) /\
    (length (chunk_end_sample s) = 2 -> forall ch, ch < 2 ->
       nth ch (chunk_end_sample s') 0%Q
       = get2 (chunk_end_sample s :: frames) (length frames) ch) /\
    (forall ch j, ch < 2 -> j < length frames ->
       block_ok (method s) (chunk_end_sample s :: frames) ch j o).
Proof.
  intros Hm Hne Hresh.
  set (inp := chunk_end_sample s :: frames).
  assert (Hinp : length inp - 1 = length frames) by (simpl; lia).
  set (J := fun c (o : list (list Q)) (s' : AudioInterpolator) =>
        method s' = method s /\ length o = 4 * length frames /\ rect o 2 /\
        length (chunk_end_sample s') = length (chunk_end_sample s) /\
        (length (chunk_end_sample s) = 2 -> forall ch, ch < c ->
           nth ch (chunk_end_sample s') 0%Q = get2 inp (length frames) ch) /\
        (forall ch j, ch < c -> j < length frames -> block_ok (method s) inp ch j o)).
  destruct (for_seq_inv J (channel_step lib inp) channels 0
              (zeros ((length inp - 1) * 4) channels) s)
    as (o' & s' & E & HJ).
  - intros c o1 s1 Hc (Hm1 & Hl1 & Hr1 & Hcl1 & Hce1 & Hblk1).
    unfold channels in Hc.
    destruct (channel_step_effect lib inp c o1 s1)
      as (o2 & s2 & E2 & Hm2 & Hce2 & Hl2 & Hr2 & Hoth2 & Hblk2);
      try rewrite Hm1; auto; try lia.
    exists o2, s2. split; auto.
    unfold J. rewrite Hce2, upd_length.
    split; [congruence|]. split; [congruence|]. split; [exact Hr2|].
    split; [exact Hcl1|]. split.
    + intros H2 ch Hch. rewrite Hinp.
      destruct (Nat.eq_dec ch c) as [->|Hne'].
      * apply nth_upd_same. lia.
      * rewrite nth_upd_other by auto. apply Hce1; auto. lia.
    + intros ch j Hch Hj. destruct (Nat.eq_dec ch c) as [->|Hne'].
      * rewrite <- Hm1. apply Hblk2. lia.
      * destruct (Hblk1 ch j) as [B3 Brep]; try lia. split.
        -- rewrite Hoth2 by auto. auto.
        -- intros Hrp t Ht. rewrite Hoth2 by auto. auto.
  - unfold J. split; [reflexivity|]. split.
    { unfold zeros. rewrite repeat_length. lia. }
    split; [apply rect_zeros|]. split; [reflexivity|]. split.
    + intros _ ch Hch. lia.
    + intros ch j Hch. lia.
  - destruct HJ as (Hm' & Hl' & Hr' & Hcl' & Hce' & Hblk').
    exists o', s'.
    unfold interpolate_chunk, bind, get, ret.
    destruct (Nat.eqb (length chunk) 0) eqn:Hz.
    + apply Nat.eqb_eq, length_zero_iff_nil in Hz. contradiction.
    + split.
      * rewrite Hresh. cbv beta iota zeta. fold inp. rewrite E. reflexivity.
      * repeat (split; [solve [auto]|]). exact Hblk'.
Qed.

(** * Reshape and flatten *)

Lemma reshape2_length chunk frames :
  reshape2 chunk = Some frames -> length chunk = 2 * length frames.
Proof.
  revert chunk frames; fix IH 1; intros [|a [|b t]] frames H; simpl in H.
  - inversion H; reflexivity.
  - discriminate.
  - destruct (reshape2 t) as [f|] eqn:E; simpl in H; [|discriminate].
    inversion H; subst. simpl. rewrite (IH t f E). lia.
Qed.

Lemma reshape2_rect chunk frames : reshape2 chunk = Some frames -> rect frames 2.
Proof.
  revert chunk frames; fix IH 1; intros [|a [|b t]] frames H; simpl in H.
  - inversion H; constructor.
  - discriminate.
  - destruct (reshape2 t) as [f|] eqn:E; simpl in H; [|discriminate].
    inversion H; subst. constructor; [reflexivity|]. exact (IH t f E).
Qed.

Lemma reshape2_nth chunk frames k c :
  reshape2 chunk = Some frames -> c < 2 ->
  get2 frames k c = nth (2 * k + c) chunk 0%Q.
Proof.
  revert chunk frames k c; fix IH 1; intros [|a [|b t]] frames k c H Hc; simpl in H.
  - clear IH. inversion H; subst. unfold get2. destruct k, c; reflexivity.
  - discriminate.
  - destruct (reshape2 t) as [f|] eqn:E; simpl in H; [|discriminate].
    inversion H; subst. destruct k as [|k].
    + clear IH. unfold get2; simpl. destruct c as [|[|c]]; simpl; [reflexivity|reflexivity|lia].
    + replace (2 * S k + c) with (S (S (2 * k + c))) by lia.
      unfold get2 in *; simpl. exact (IH t f k c E Hc).
Qed.

Lemma reshape2_even chunk : Nat.even (length chunk) = true ->
  exists frames, reshape2 chunk = Some frames.
Proof.
  revert chunk; fix IH 1; intros [|a [|b t]] H; simpl in *.
  - eauto.
  - discriminate.
  - destruct (IH t H) as [f E]. rewrite E. simpl. eauto.
Qed.

Lemma flatten_length a w : rect a w -> length (flatten a) = w * length a.
Proof.
  induction a as [|row a IH]; intros H; simpl; [lia|].
  inversion H; subst. unfold flatten in *. simpl.
  rewrite length_app, IH; auto. lia.
Qed.

Lemma nth_flatten a w r c :
  rect a w -> c < w -> nth (w * r + c) (flatten a) 0%Q = get2 a r c.
Proof.
  revert r; induction a as [|row a IH]; intros r H Hc.
  - unfold get2, flatten; simpl. destruct (w * r + c), r, c; reflexivity.
  - inversion H; subst. unfold flatten; simpl. destruct r as [|r].
    + rewrite app_nth1 by lia. unfold get2; simpl. f_equal; lia.
    + rewrite app_nth2 by lia.
      replace (length row * S r + c - length row) with (length row * r + c) by lia.
      apply IH; auto.
Qed.

(** * The path of an unrecognized [method] *)

Lemma method_literal_false m :
  method_literal m = false ->
  String.eqb m "cubic" = false /\ String.eqb m "akima" = false /\
  String.eqb m "pchip" = false /\ String.eqb m "repeat" = false.
Proof.
  unfold method_literal. intros H.
  repeat rewrite orb_false_iff in H. tauto.
Qed.

Lemma pair_step_unknown lib ch inp i acc s :
  method_literal (method s) = false ->
  pair_step lib ch inp i acc s =
    (inr (ValueError (String.append "Unknown interpolation method: " (method s))), s).
Proof.
  intros Hm. destruct (method_literal_false _ Hm) as (Hc & Ha & Hp & Hr).
  destruct acc as [out idx]. unfold pair_step, bind, get. cbv beta iota zeta.
  rewrite Hr. unfold select_interpolator. rewrite Hc, Ha, Hp. reflexivity.
Qed.

Lemma channel_step_unknown lib inp ch o s :
  method_literal (method s) = false -> 2 <= length inp ->
  channel_step lib inp ch o s =
    (inr (ValueError (String.append "Unknown interpolation method: " (method s))), s).
Proof.
  intros Hm Hlen.
  unfold channel_step.
  replace (length inp - 1) with (S (length inp - 2)) by lia.
  cbn [seq for_]. unfold bind at 1 2.
  rewrite (pair_step_unknown lib ch inp 0 (o, 0) s Hm). reflexivity.
Qed.

Lemma interpolate_chunk_unknown lib chunk f frames s :
  method_literal (method s) = false -> reshape2 chunk = Some (f :: frames) ->
  interpolate_chunk lib chunk s =
    (inr (ValueError (String.append "Unknown interpolation method: " (method s))), s).
Proof.
  intros Hm Hresh.
  assert (Hz : Nat.eqb (length chunk) 0 = false).
  { apply Nat.eqb_neq. rewrite (reshape2_length _ _ Hresh). simpl. lia. }
  unfold interpolate_chunk. rewrite Hz. unfold bind at 1 2, get at 1.
  rewrite Hresh. unfold ret at 1. cbv beta iota zeta.
  unfold channels. cbn [seq for_]. unfold bind.
  rewrite channel_step_unknown by (auto; simpl; lia). reflexivity.
Qed.

Lemma interpolate_chunk_ok_literal lib chunk s out s' :
  chunk <> [] -> interpolate_chunk lib chunk s = (inl out, s') ->
  method_literal (method s) = true.
Proof.
  intros Hne E. destruct (method_literal (method s)) eqn:Hm; auto.
  destruct (reshape2 chunk) as [[|f frames]|] eqn:Hresh.
  - apply reshape2_length in Hresh. destruct chunk; simpl in *; [contradiction|lia].
  - rewrite (interpolate_chunk_unknown lib chunk f frames s Hm Hresh) in E. discriminate.
  - unfold interpolate_chunk in E.
    destruct (Nat.eqb (length chunk) 0) eqn:Hz.
    + apply Nat.eqb_eq, length_zero_iff_nil in Hz. contradiction.
    + unfold bind, get in E. rewrite Hresh in E. discriminate.
Qed.

(** * The ['repeat'] branch calls no interpolator *)

Lemma for_preserves {A} (P : AudioInterpolator -> Prop) (body : nat -> A -> M A) l :
  (forall i a s r s', P s -> body i a s = (r, s') -> P s') ->
  forall a s r s', P s -> for_ l body a s = (r, s') -> P s'.
Proof.
  intros Hb. induction l as [|i l IH]; intros a s r s' Hs E; simpl in E.
  - unfold ret in E. inversion E; subst; auto.
  - unfold bind in E. destruct (body i a s) as [[a1|e] s1] eqn:E1.
    + eapply IH; [|exact E]. eapply Hb; eauto.
    + inversion E; subst. eapply Hb; eauto.
Qed.

Lemma for_ext {A} (P : AudioInterpolator -> Prop) (b1 b2 : nat -> A -> M A) l :
  (forall i a s, P s -> b1 i a s = b2 i a s) ->
  (forall i a s r s', P s -> b1 i a s = (r, s') -> P s') ->
  forall a s, P s -> for_ l b1 a s = for_ l b2 a s.
Proof.
  intros Heq Hb. induction l as [|i l IH]; intros a s Hs; simpl; auto.
  unfold bind. rewrite <- (Heq i a s Hs).
  destruct (b1 i a s) as [[a1|e] s1] eqn:E1; auto.
  apply IH. eapply Hb; eauto.
Qed.

Lemma pair_step_repeat lib lib' ch inp i acc s :
  method s = "repeat"%string ->
  pair_step lib ch inp i acc s = pair_step lib' ch inp i acc s /\
  (forall r s', pair_step lib ch inp i acc s = (r, s') -> method s' = "repeat"%string).
Proof.
  intros Hr. destruct acc as [out idx].
  unfold pair_step, bind, get, put, ret. cbv beta iota zeta. rewrite Hr.
  cbn -[set_range set_col_from roll_m4 column get2].
  split; [reflexivity|]. intros r s' E. inversion E; subst; exact Hr.
Qed.

Lemma channel_step_repeat lib lib' inp ch o s :
  method s = "repeat"%string ->
  channel_step lib inp ch o s = channel_step lib' inp ch o s /\
  (forall r s', channel_step lib inp ch o s = (r, s') -> method s' = "repeat"%string).
Proof.
  intros Hr.
  assert (Hpres : forall r s', for_ (seq 0 (length inp - 1)) (pair_step lib ch inp) (o, 0) s
                                = (r, s') -> method s' = "repeat"%string).
  { intros r s' E. eapply (for_preserves (fun s => method s = "repeat"%string)); [|exact Hr|exact E].
    intros i a s1 r1 s1' H1 E1. eapply (pair_step_repeat lib lib); eauto. }
  split.
  - unfold channel_step, bind at 1 3.
    rewrite (for_ext (fun s => method s = "repeat"%string) (pair_step lib ch inp)
               (pair_step lib' ch inp)); auto.
    + intros i a s1 H1. apply pair_step_repeat; auto.
    + intros i a s1 r1 s1' H1 E1. eapply (pair_step_repeat lib lib); eauto.
  - intros r s' E. unfold channel_step, bind, get, put, ret in E.
    destruct (for_ (seq 0 (length inp - 1)) (pair_step lib ch inp) (o, 0) s)
      as [[a|e] s1] eqn:E1.
    + inversion E; subst. simpl. eapply Hpres; eauto.
    + inversion E; subst. eapply Hpres; eauto.
Qed.

Lemma interpolate_chunk_repeat lib lib' chunk s :
  method s = "repeat"%string -> interpolate_chunk lib chunk s = interpolate_chunk lib' chunk s.
Proof.
  intros Hr. unfold interpolate_chunk.
  destruct (Nat.eqb (length chunk) 0); [reflexivity|].
  unfold bind at 1 2 4 5, get.
  destruct (reshape2 chunk) as [frames|]; cbv beta iota zeta; [|reflexivity].
  cbv beta iota zeta delta [ret bind].
  rewrite (for_ext (fun s => method s = "repeat"%string)
             (channel_step lib (chunk_end_sample s :: frames))
             (channel_step lib' (chunk_end_sample s :: frames))); auto.
  - intros i a s1 H1. apply channel_step_repeat; auto.
  - intros i a s1 r1 s1' H1 E1. eapply (channel_step_repeat lib lib); eauto.
Qed.

(** * Carry and length of one call *)

Lemma last_nth {A} (x : A) l d : last (x :: l) d = nth (length l) (x :: l) d.
Proof.
  revert x; induction l as [|y l IH]; intros x; [reflexivity|].
  change (last (x :: y :: l) d) with (last (y :: l) d). rewrite IH. reflexivity.
Qed.

Lemma list2_ext (l1 l2 : list Q) :
  length l1 = 2 -> length l2 = 2 ->
  (forall c, c < 2 -> nth c l1 0%Q = nth c l2 0%Q) -> l1 = l2.
Proof.
  intros H1 H2 H.
  destruct l1 as [|a [|b [|? ?]]]; try discriminate.
  destruct l2 as [|a' [|b' [|? ?]]]; try discriminate.
  pose proof (H 0 ltac:(lia)) as H0; pose proof (H 1 ltac:(lia)) as H1'.
  simpl in H0, H1'. subst. reflexivity.
Qed.

Lemma out_index_4k3 lib s chunk frames out s' :
  reshape2 chunk = Some frames ->
  interpolate_chunk lib chunk s = (inl out, s') ->
  forall c k, c < channels -> k < length frames ->
    nth (2 * (4 * k + 3) + c) out 0%Q = get2 (chunk_end_sample s :: frames) k c.
Proof.
  intros Hresh E c k Hc Hk. unfold channels in Hc.
  assert (Hne : chunk <> []).
  { intro; subst. simpl in Hresh. inversion Hresh; subst. simpl in Hk. lia. }
  pose proof (interpolate_chunk_ok_literal _ _ _ _ _ Hne E) as Hm.
  destruct (interpolate_chunk_effect lib chunk frames s Hm Hne Hresh)
    as (o & s'' & E' & _ & _ & Hro & _ & _ & Hblk).
  rewrite E in E'. inversion E'; subst.
  rewrite (nth_flatten o 2 (4 * k + 3) c Hro Hc).
  apply (proj1 (Hblk c k Hc Hk)).
Qed.

Lemma carry_after_call lib s chunk frames out s' :
  length (chunk_end_sample s) = 2 -> reshape2 chunk = Some frames -> frames <> [] ->
  interpolate_chunk lib chunk s = (inl out, s') ->
  chunk_end_sample s' = last (chunk_end_sample s :: frames) [].
Proof.
  intros Hl Hresh Hne E.
  assert (Hc : chunk <> []).
  { intro; subst. simpl in Hresh. inversion Hresh; subst. contradiction. }
  pose proof (interpolate_chunk_ok_literal _ _ _ _ _ Hc E) as Hm.
  destruct (interpolate_chunk_effect lib chunk frames s Hm Hc Hresh)
    as (o & s'' & E' & _ & _ & _ & Hcl & Hce & _).
  rewrite E in E'. inversion E'; subst.
  rewrite last_nth. apply list2_ext.
  - congruence.
  - destruct frames as [|f fr]; [contradiction|]. simpl.
    apply (rect_row (f :: fr) 2 (length fr)); [eapply reshape2_rect; eauto|simpl; lia].
  - intros c Hc'. rewrite Hce by auto. reflexivity.
Qed.

Lemma interpolate_chunk_length lib s chunk n :
  method_literal (method s) = true -> length chunk = 2 * n ->
  exists out s', interpolate_chunk lib chunk s = (inl out, s') /\
    length out = 8 * n /\ method s' = method s.
Proof.
  intros Hm Hl. destruct chunk as [|x chunk'].
  - exists [], s. simpl in Hl. repeat split; auto. simpl. lia.
  - destruct (reshape2_even (x :: chunk')) as [frames Hresh].
    { rewrite Hl, Nat.even_mul. reflexivity. }
    destruct (interpolate_chunk_effect lib (x :: chunk') frames s Hm ltac:(intros ?; discriminate) Hresh)
      as (o & s' & E & Hm' & Hlo & Hro & _).
    exists (flatten o), s'. split; [exact E|]. split; [|exact Hm'].
    rewrite (flatten_length o 2 Hro), Hlo. apply reshape2_length in Hresh. lia.
Qed.

Lemma process_stream_length lib chunks s :
  method_literal (method s) = true ->
  Forall (fun c => exists n, length c = 2 * n) chunks ->
  exists out s', process_stream lib chunks s = (inl out, s') /\
    length out = 4 * length (concat chunks).
Proof.
  revert s; induction chunks as [|c cs IH]; intros s Hm Hall.
  - exists [], s. split; reflexivity.
  - inversion Hall as [|? ? [n Hn] Hcs]; subst.
    destruct (interpolate_chunk_length lib s c n Hm Hn) as (o1 & s1 & E1 & Hl1 & Hm1).
    destruct (IH s1) as (o2 & s2 & E2 & Hl2); [congruence|auto|].
    exists (o1 ++ o2), s2. cbn [process_stream]. unfold bind at 1. rewrite E1.
    unfold bind. rewrite E2. split; [reflexivity|].
    cbn [concat]. rewrite !length_app. lia.
Qed.

Lemma Forall2_Qeq_nth l1 l2 :
  Forall2 Qeq l1 l2 -> forall n, nth n l1 0%Q == nth n l2 0%Q.
Proof.
  induction 1 as [|x y l1 l2 Hxy H IH]; intros [|n]; simpl; auto; reflexivity.
Qed.

(** The result list of a call, [[]] when it raised. *)
Definition out_of {A} (r : (list Q + py_error) * A) : list Q :=
  match fst r with inl o => o | inr _ => [] end.

(** A concrete library for evaluation: its [PchipInterpolator] is the
    model of [Pchip]; the two other slots are constant zero and are only
    reached below through methods 'pchip' and 'repeat', which never call
    them. *)
Definition lib_pchip : spline_lib :=
  lib_with_pchip (fun _ _ _ => 0%Q) (fun _ _ _ => 0%Q).

(** Six stereo frames as the WAV reader delivers them (int16 times 256),
    as one chunk and as six one-frame chunks. *)
Definition six_frames : list Q :=
  [256; 512; 768; 256; 512; 1280; 1024; 1024; 1536; 512; 768; 1792]%Q.
Definition six_single_frames : list (list Q) :=
  [[256; 512]; [768; 256]; [512; 1280]; [1024; 1024]; [1536; 512]; [768; 1792]]%Q.

(** * The claims *)

(** C1 (code_bug): chunk-boundary transparency fails.  With method
    'pchip', the six frames of [six_frames] fed as one chunk and as six
    one-frame chunks to fresh engines give outputs that differ in value
    (whatever the cubic and Akima interpolators are): the [np.roll] of
    line 87 shifts the whole (9, 2) window on every pair of either
    channel, so each call also rotates the other channel's history. *)
Theorem C1_pchip_one_chunk_vs_six_chunks (cubic akima : list Q -> list Q -> Q -> Q) :
  let lib := lib_with_pchip cubic akima in
  let whole := process_stream lib [six_frames] (init "pchip") in
  let split := process_stream lib six_single_frames (init "pchip") in
  fst whole = inl (out_of whole) /\ fst split = inl (out_of split) /\
  length (out_of whole) = length (out_of split) /\
  ~ Forall2 Qeq (out_of whole) (out_of split).
Proof.
  intros lib whole split.
  split; [vm_compute; reflexivity|].
  split; [vm_compute; reflexivity|].
  split; [vm_compute; reflexivity|].
  intros H. pose proof (Forall2_Qeq_nth _ _ H 16) as H16.
  unfold Qeq in H16. vm_compute in H16. discriminate.
Qed.

(** C2 (code_bug): the history window does not hold the last nine emitted
    samples of each channel.  One call with method 'repeat' on the frames
    (256, 512), (768, 1024) of a fresh engine emits, on channel 0, the
    blocks 0,0,0,0 then 256,256,256,256; the window of channel 0 is left
    as 256,0,0,0,0,0,256,256,256, not 0,0,0,0,0,256,256,256,256, because
    the processing of channel 1 rolled it twice more. *)
Theorem C2_repeat_window_rotated lib :
  let r := interpolate_chunk lib [256; 512; 768; 1024]%Q (init "repeat") in
  fst r = inl [0; 0; 0; 0; 0; 0; 0; 0; 256; 512; 256; 512; 256; 512; 256; 512]%Q /\
  column (previous_samples (snd r)) 0 = [256; 0; 0; 0; 0; 0; 256; 256; 256]%Q /\
  column (previous_samples (snd r)) 1 = [0; 0; 0; 0; 0; 512; 512; 512; 512]%Q /\
  column (previous_samples (snd r)) 0 <> [0; 0; 0; 0; 0; 256; 256; 256; 256]%Q.
Proof.
  intros r. split; [reflexivity|]. split; [reflexivity|]. split; [reflexivity|].
  change (column (previous_samples (snd r)) 0) with [256; 0; 0; 0; 0; 0; 256; 256; 256]%Q.
  discriminate.
Qed.

(** C3 (corrected): in each call, per-channel output index [4k+3] holds
    frame [k] of the working sequence [chunk_end_sample :: frames] (line
    81 copies [input_samples[i, channel]]): index 3 holds the carried
    frame, and frame [k] of the chunk appears at index [4(k+1)+3] for all
    but the chunk's last frame.  That last frame becomes the carry, and
    the next call on a non-empty chunk has it at index 3. *)
Theorem C3_passthrough_working_sequence lib s chunk frames out s' :
  reshape2 chunk = Some frames ->
  interpolate_chunk lib chunk s = (inl out, s') ->
  (forall c k, c < channels -> k < length frames ->
     nth (2 * (4 * k + 3) + c) out 0%Q = get2 (chunk_end_sample s :: frames) k c) /\
  (forall c, c < channels -> frames <> [] ->
     nth (2 * 3 + c) out 0%Q = nth c (chunk_end_sample s) 0%Q) /\
  (forall c k, c < channels -> S k < length frames ->
     nth (2 * (4 * S k + 3) + c) out 0%Q = nth (2 * k + c) chunk 0%Q) /\
  (length (chunk_end_sample s) = 2 -> frames <> [] ->
     chunk_end_sample s' = last frames [] /\
     forall chunk2 frames2 out2 s2,
       reshape2 chunk2 = Some frames2 -> frames2 <> [] ->
       interpolate_chunk lib chunk2 s' = (inl out2, s2) ->
       forall c, c < channels -> nth (2 * 3 + c) out2 0%Q = nth c (last frames []) 0%Q).
Proof.
  intros Hresh E.
  pose proof (out_index_4k3 lib s chunk frames out s' Hresh E) as Hall.
  split; [exact Hall|]. split; [|split].
  - intros c Hc Hne. apply (Hall c 0 Hc).
    destruct frames; [contradiction|simpl; lia].
  - intros c k Hc Hk. rewrite (Hall c (S k) Hc Hk).
    unfold channels in Hc. apply (reshape2_nth chunk frames k c Hresh Hc).
  - intros Hl Hne.
    assert (Hc' : chunk_end_sample s' = last frames []).
    { rewrite (carry_after_call lib s chunk frames out s' Hl Hresh Hne E).
      destruct frames as [|f fr]; [contradiction|]. reflexivity. }
    split; [exact Hc'|].
    intros chunk2 frames2 out2 s2 Hresh2 Hne2 E2 c Hc.
    change (2 * 3 + c) with (2 * (4 * 0 + 3) + c).
    rewrite (out_index_4k3 lib s' chunk2 frames2 out2 s2 Hresh2 E2 c 0 Hc)
      by (destruct frames2; [contradiction|simpl; lia]).
    rewrite <- Hc'. reflexivity.
Qed.

Lemma C3_passthrough_working_sequence_witness :
  reshape2 [256; 512; 768; 1024]%Q = Some [[256; 512]; [768; 1024]]%Q /\
  nth (2 * 3 + 0) (out_of (interpolate_chunk lib_pchip [256; 512; 768; 1024]%Q (init "pchip"))) 0%Q
  = nth 0 (chunk_end_sample (init "pchip")) 0%Q.
Proof.
  split; [reflexivity|].
  apply (C3_passthrough_working_sequence lib_pchip (init "pchip") [256; 512; 768; 1024]%Q
           [[256; 512]; [768; 1024]]%Q
           (out_of (interpolate_chunk lib_pchip [256; 512; 768; 1024]%Q (init "pchip")))
           (snd (interpolate_chunk lib_pchip [256; 512; 768; 1024]%Q (init "pchip")))).
  - reflexivity.
  - vm_compute. reflexivity.
  - unfold channels. lia.
  - discriminate.
Defined.

(** C3 counterexample: on a fresh 'pchip' engine, the single frame
    (256, 256) does not appear at per-channel index 3; the zero carry does. *)
Lemma C3_index3_counterexample :
  fst (interpolate_chunk lib_pchip [256; 256]%Q (init "pchip"))
    = inl (out_of (interpolate_chunk lib_pchip [256; 256]%Q (init "pchip"))) /\
  ~ (nth (2 * (4 * 0 + 3) + 0)
        (out_of (interpolate_chunk lib_pchip [256; 256]%Q (init "pchip"))) 0%Q == 256).
Proof.
  split; [vm_compute; reflexivity|].
  unfold Qeq. vm_compute. discriminate.
Qed.

(** C4 (corrected): [__init__] checks nothing and stores any selector;
    an empty chunk returns [[]] under any selector; a non-empty chunk
    raises [ValueError("Unknown interpolation method: ...")] at its first
    frame pair when the selector is not one of the four, before the object
    is touched, and never raises for the four recognized selectors. *)
Theorem C4_method_checked_in_interpolate_chunk lib s chunk f frames :
  reshape2 chunk = Some (f :: frames) ->
  (forall m, method (init m) = m) /\
  interpolate_chunk lib [] s = (inl [], s) /\
  (method_literal (method s) = false ->
     interpolate_chunk lib chunk s =
       (inr (ValueError (String.append "Unknown interpolation method: " (method s))), s)) /\
  (method_literal (method s) = true ->
     exists out s', interpolate_chunk lib chunk s = (inl out, s')).
Proof.
  intros Hresh. split; [reflexivity|]. split; [reflexivity|]. split.
  - intros Hm. apply interpolate_chunk_unknown with (f := f) (frames := frames); auto.
  - intros Hm.
    destruct (interpolate_chunk_effect lib chunk (f :: frames) s Hm) as (o & s' & E & _);
      auto.
    + intro; subst; discriminate.
    + exists (flatten o), s'. exact E.
Qed.

Lemma C4_method_checked_in_interpolate_chunk_witness :
  reshape2 [256; 256]%Q = Some [[256; 256]]%Q /\
  interpolate_chunk lib_pchip [256; 256]%Q (init "linear") =
    (inr (ValueError "Unknown interpolation method: linear"), init "linear").
Proof.
  split; [reflexivity|].
  apply (C4_method_checked_in_interpolate_chunk lib_pchip (init "linear") [256; 256]%Q
           [256; 256]%Q []); reflexivity.
Defined.

(** C4 counterexample: an engine built with the selector "linear" is
    constructed, processes an empty chunk without error, and raises only
    when a non-empty chunk reaches the dispatch of lines 67-74. *)
Lemma C4_unknown_method_constructed_counterexample :
  method (init "linear") = "linear"%string /\
  interpolate_chunk lib_pchip [] (init "linear") = (inl [], init "linear") /\
  fst (interpolate_chunk lib_pchip [256; 256]%Q (init "linear")) =
    inr (ValueError "Unknown interpolation method: linear").
Proof.
  split; [reflexivity|]. split; [reflexivity|]. vm_compute. reflexivity.
Qed.

(** C5 (confirmed): under 'repeat', the call does not depend on the
    interpolators at all (the branch of line 45 is taken before any of
    them is built), and each emitted 4-sample block of each channel is
    [input_samples[i, channel]], the earlier frame of pair [i], four times. *)
Theorem C5_hold_blocks lib s chunk frames out s' :
  method s = "repeat"%string -> reshape2 chunk = Some frames ->
  interpolate_chunk lib chunk s = (inl out, s') ->
  (forall lib', interpolate_chunk lib' chunk s = interpolate_chunk lib chunk s) /\
  (forall c k t, c < channels -> k < length frames -> t < 4 ->
     nth (2 * (4 * k + t) + c) out 0%Q = get2 (chunk_end_sample s :: frames) k c).
Proof.
  intros Hr Hresh E. split.
  - intros lib'. apply interpolate_chunk_repeat. exact Hr.
  - intros c k t Hc Hk Ht. unfold channels in Hc.
    assert (Hne : chunk <> []).
    { intro; subst. simpl in Hresh. inversion Hresh; subst. simpl in Hk. lia. }
    pose proof (interpolate_chunk_ok_literal _ _ _ _ _ Hne E) as Hm.
    destruct (interpolate_chunk_effect lib chunk frames s Hm Hne Hresh)
      as (o & s'' & E' & _ & _ & Hro & _ & _ & Hblk).
    rewrite E in E'. inversion E'; subst.
    rewrite (nth_flatten o 2 (4 * k + t) c Hro Hc).
    apply (proj2 (Hblk c k Hc Hk)); auto. rewrite Hr. reflexivity.
Qed.

Lemma C5_hold_blocks_witness :
  nth (2 * (4 * 1 + 2) + 1)
      (out_of (interpolate_chunk lib_pchip [256; 512; 768; 1024]%Q (init "repeat"))) 0%Q
  = 512%Q.
Proof.
  destruct (C5_hold_blocks lib_pchip (init "repeat") [256; 512; 768; 1024]%Q
              [[256; 512]; [768; 1024]]%Q
              (out_of (interpolate_chunk lib_pchip [256; 512; 768; 1024]%Q (init "repeat")))
              (snd (interpolate_chunk lib_pchip [256; 512; 768; 1024]%Q (init "repeat"))))
    as [_ Hblk].
  - reflexivity.
  - reflexivity.
  - vm_compute. reflexivity.
  - rewrite (Hblk 1 1 2); [reflexivity| |simpl; lia|lia]. unfold channels. lia.
Defined.

(** C6 (confirmed): for each of the four recognized selectors, a chunk of
    [n] stereo frames ([2 * n] interleaved values) yields [8 * n] values,
    i.e. [4 * n] per channel; and a stream cut into any chunks of whole
    frames yields four values per input value in total. *)
Theorem C6_output_length lib s :
  method_literal (method s) = true ->
  (forall chunk n, length chunk = 2 * n ->
     exists out s', interpolate_chunk lib chunk s = (inl out, s') /\
       length out = 8 * n) /\
  (forall chunks, Forall (fun c => exists n, length c = 2 * n) chunks ->
     exists out s', process_stream lib chunks s = (inl out, s') /\
       length out = 4 * length (concat chunks)).
Proof.
  intros Hm. split.
  - intros chunk n Hl.
    destruct (interpolate_chunk_length lib s chunk n Hm Hl) as (out & s' & E & Hlo & _).
    exists out, s'. split; assumption.
  - intros chunks Hall. apply process_stream_length; assumption.
Qed.

Lemma C6_output_length_witness :
  method_literal (method (init "akima")) = true /\
  exists out s', interpolate_chunk lib_pchip [256; 512; 768; 1024; 0; 0]%Q (init "akima")
                 = (inl out, s') /\ length out = 24.
Proof.
  split; [reflexivity|].
  apply (proj1 (C6_output_length lib_pchip (init "akima") eq_refl)
                [256; 512; 768; 1024; 0; 0]%Q 3).
  reflexivity.
Defined.

(** C7 (confirmed): an empty chunk returns an empty output, raises nothing
    and leaves the whole object (history, carry and selector) as it was,
    whatever the selector and the interpolators. *)
Theorem C7_empty_chunk lib s :
  interpolate_chunk lib [] s = (inl [], s).
Proof. reflexivity. Qed.

(** C8 (confirmed): [chunk_end_sample] is zero on a fresh object, and after
    a successful call on a non-empty chunk it is the last frame of the
    working sequence [chunk_end_sample :: frames] (which is the last frame
    of the chunk). *)
Theorem C8_carry_is_last_frame lib s chunk frames out s' :
  length (chunk_end_sample s) = 2 -> reshape2 chunk = Some frames -> frames <> [] ->
  interpolate_chunk lib chunk s = (inl out, s') ->
  (forall m, chunk_end_sample (init m) = [0; 0]%Q) /\
  chunk_end_sample s' = last (chunk_end_sample s :: frames) [].
Proof.
  intros Hl Hresh Hne E. split.
  - intros m. reflexivity.
  - exact (carry_after_call lib s chunk frames out s' Hl Hresh Hne E).
Qed.

Lemma C8_carry_is_last_frame_witness :
  chunk_end_sample
    (snd (interpolate_chunk lib_pchip [256; 512; 768; 1024]%Q (init "pchip")))
  = [768; 1024]%Q.
Proof.
  rewrite (proj2 (C8_carry_is_last_frame lib_pchip (init "pchip") [256; 512; 768; 1024]%Q
             [[256; 512]; [768; 1024]]%Q
             (out_of (interpolate_chunk lib_pchip [256; 512; 768; 1024]%Q (init "pchip")))
             (snd (interpolate_chunk lib_pchip [256; 512; 768; 1024]%Q (init "pchip")))
             eq_refl eq_refl ltac:(discriminate) ltac:(vm_compute; reflexivity))).
  reflexivity.
Defined.

(** C9 (confirmed): [reset] followed by zeroing [chunk_end_sample] gives
    exactly the object [__init__] builds with the same selector, so any
    stream then produces the same output and final state as on a fresh
    object. *)
Theorem C9_reset_and_clear_carry lib s chunks :
  process_stream lib chunks
    {| previous_samples := previous_samples (reset s);
       chunk_end_sample := repeat 0%Q 2;
       method := method (reset s) |}
  = process_stream lib chunks (init (method s)).
Proof. reflexivity. Qed.

(** C10 (corrected): [reset] zero-fills [previous_samples] and keeps
    [chunk_end_sample]; after a successful non-empty call the kept carry is
    the chunk's last frame, so [reset] alone differs from the fresh state
    on some channel whenever that last frame is not all zero, and gives
    back the fresh state when it is: exactly [init (method s)] when the
    frame is [[0; 0]], and the same fields up to the numeric equality of
    the carry when both its values equal zero. *)
Theorem C10_reset_keeps_carry lib s chunk frames out s' :
  length (chunk_end_sample s) = 2 -> reshape2 chunk = Some frames -> frames <> [] ->
  interpolate_chunk lib chunk s = (inl out, s') ->
  previous_samples (reset s') = zeros 9 2 /\
  chunk_end_sample (reset s') = chunk_end_sample s' /\
  chunk_end_sample (reset s') = last frames [] /\
  (~ (nth 0 (last frames []) 0%Q == 0%Q /\ nth 1 (last frames []) 0%Q == 0%Q) ->
   exists c, c < channels /\
     ~ (nth c (chunk_end_sample (reset s')) 0%Q ==
        nth c (chunk_end_sample (init (method s))) 0%Q)) /\
  (last frames [] = [0; 0]%Q -> reset s' = init (method s)) /\
  (nth 0 (last frames []) 0%Q == 0%Q /\ nth 1 (last frames []) 0%Q == 0%Q ->
   previous_samples (reset s') = previous_samples (init (method s)) /\
   method (reset s') = method (init (method s)) /\
   forall c, c < channels ->
     nth c (chunk_end_sample (reset s')) 0%Q ==
     nth c (chunk_end_sample (init (method s))) 0%Q).
Proof.
  intros Hl Hresh Hne E.
  pose proof (carry_after_call lib s chunk frames out s' Hl Hresh Hne E) as Hc.
  assert (Hlast : chunk_end_sample (reset s') = last frames []).
  { cbn [reset chunk_end_sample]. rewrite Hc.
    destruct frames as [|f fr]; [contradiction|reflexivity]. }
  assert (Hch : chunk <> []).
  { intros ->. cbn in Hresh. injection Hresh as <-. contradiction. }
  assert (Hm : method s' = method s).
  { pose proof (interpolate_chunk_ok_literal _ _ _ _ _ Hch E) as Hlit.
    destruct (interpolate_chunk_effect lib chunk frames s Hlit Hch Hresh)
      as (o & s'' & E' & Hm' & _).
    rewrite E in E'. injection E' as _ <-. exact Hm'. }
  split; [reflexivity|]. split; [reflexivity|]. split; [exact Hlast|]. split; [|split].
  - intros Hnz. rewrite Hlast. cbn [init chunk_end_sample repeat].
    destruct (Qeq_dec (nth 0 (last frames []) 0%Q) 0%Q) as [H0|H0].
    + exists 1. split; [unfold channels; lia|]. simpl.
      intros H1. apply Hnz. split; assumption.
    + exists 0. split; [unfold channels; lia|]. exact H0.
  - intros Hz. cbn [chunk_end_sample reset] in Hlast.
    unfold reset, init. rewrite Hlast, Hz, Hm. reflexivity.
  - intros [H0 H1]. split; [reflexivity|]. split; [exact Hm|].
    intros c Hcl. rewrite Hlast. cbn [init chunk_end_sample repeat].
    unfold channels in Hcl. destruct c as [|[|c]]; [exact H0|exact H1|lia].
Qed.

Lemma C10_reset_keeps_carry_witness :
  exists c, c < channels /\
    ~ (nth c (chunk_end_sample
               (reset (snd (interpolate_chunk lib_pchip [256; 512]%Q (init "repeat"))))) 0%Q
       == nth c (chunk_end_sample (init "repeat")) 0%Q).
Proof.
  apply (proj1 (proj2 (proj2 (proj2
    (C10_reset_keeps_carry lib_pchip (init "repeat") [256; 512]%Q [[256; 512]]%Q
       (out_of (interpolate_chunk lib_pchip [256; 512]%Q (init "repeat")))
       (snd (interpolate_chunk lib_pchip [256; 512]%Q (init "repeat")))
       eq_refl eq_refl ltac:(discriminate) ltac:(vm_compute; reflexivity)))))).
  intros [H _]. vm_compute in H. discriminate.
Defined.

(** C10 counterexample: after the non-empty chunk [[0, 0]] under 'repeat',
    [reset] alone gives back exactly the freshly constructed object. *)
Lemma C10_zero_frame_counterexample :
  exists out s', interpolate_chunk lib_pchip [0; 0]%Q (init "repeat") = (inl out, s') /\
    reset s' = init "repeat".
Proof.
  eexists. eexists. split.
  - vm_compute. reflexivity.
  - vm_compute. reflexivity.
Qed.

(** * Properties of the driver *)


Lemma u8_bounds b : (0 <= u8 b <= 255)%Z.
Proof.
  unfold u8. pose proof (Byte.to_N_bounded b). lia.
Qed.

Lemma u8_byte_of_Z z : u8 (byte_of_Z z) = (z mod 256)%Z.
Proof.
  unfold byte_of_Z.
  assert (Hl : Z.land z 255 = (z mod 256)%Z).
  { change 255%Z with (Z.ones 8). rewrite Z.land_ones by lia. reflexivity. }
  rewrite Hl.
  pose proof (Z.mod_pos_bound z 256 ltac:(lia)) as Hb.
  destruct (Byte.of_N (Z.to_N (z mod 256))) as [b|] eqn:E.
  - apply Byte.to_of_N in E. unfold u8. rewrite E. lia.
  - apply Byte.of_N_None_iff in E. lia.
Qed.

Lemma u8_inj b b' : u8 b = u8 b' -> b = b'.
Proof.
  unfold u8. intros H.
  assert (Hn : Byte.to_N b = Byte.to_N b') by lia.
  pose proof (Byte.of_to_N b) as E1. pose proof (Byte.of_to_N b') as E2.
  rewrite Hn in E1. congruence.
Qed.

Lemma byte_of_Z_eq z b : (z mod 256)%Z = u8 b -> byte_of_Z z = b.
Proof. intros H. apply u8_inj. rewrite u8_byte_of_Z. exact H. Qed.

Lemma int16_of_bounds lo hi : (-32768 <= int16_of lo hi <= 32767)%Z.
Proof.
  unfold int16_of. pose proof (u8_bounds lo). pose proof (u8_bounds hi).
  destruct (Z.ltb_spec (u8 lo + 256 * u8 hi) 32768); lia.
Qed.

Lemma decode24_bytes v :
  (-8388608 <= v <= 8388607)%Z ->
  decode24 (byte_of_Z v) (byte_of_Z (Z.shiftr v 8)) (byte_of_Z (Z.shiftr v 16)) = v.
Proof.
  intros Hv. unfold decode24. rewrite !u8_byte_of_Z, !Z.shiftr_div_pow2 by lia.
  change (2 ^ 8)%Z with 256%Z. change (2 ^ 16)%Z with 65536%Z.
  pose proof (Z.div_mod v 256 ltac:(lia)) as E0.
  pose proof (Z.mod_pos_bound v 256 ltac:(lia)) as B0.
  pose proof (Z.div_mod (v / 256) 256 ltac:(lia)) as E1.
  pose proof (Z.mod_pos_bound (v / 256) 256 ltac:(lia)) as B1.
  pose proof (Z.div_mod (v / 65536) 256 ltac:(lia)) as E2.
  pose proof (Z.mod_pos_bound (v / 65536) 256 ltac:(lia)) as B2.
  assert (D : (v / 65536 = v / 256 / 256)%Z).
  { rewrite Z.div_div by lia. reflexivity. }
  rewrite D in E2, B2 |- *.
  destruct (Z.ltb_spec ((v mod 256) + 256 * ((v / 256) mod 256)
                        + 65536 * ((v / 256 / 256) mod 256)) 8388608); lia.
Qed.

Lemma frombuffer_int16_length bs zs :
  frombuffer_int16 bs = Some zs -> length bs = 2 * length zs.
Proof.
  revert bs zs. fix IH 1. intros [|a [|b t]] zs H; simpl in H.
  - inversion H; subst. reflexivity.
  - discriminate.
  - destruct (frombuffer_int16 t) as [zs'|] eqn:E; simpl in H; [|discriminate].
    inversion H; subst. simpl. rewrite (IH t zs' E). lia.
Qed.

Lemma frombuffer_int16_even bs :
  Nat.even (length bs) = true -> exists zs, frombuffer_int16 bs = Some zs.
Proof.
  revert bs. fix IH 1. intros [|a [|b t]] H.
  - exists []. reflexivity.
  - discriminate.
  - simpl in H. destruct (IH t H) as [zs E]. exists (int16_of a b :: zs).
    simpl. rewrite E. reflexivity.
Qed.

Lemma frombuffer_int16_odd bs :
  Nat.even (length bs) = false -> frombuffer_int16 bs = None.
Proof.
  revert bs. fix IH 1. intros [|a [|b t]] H.
  - discriminate.
  - reflexivity.
  - simpl in H. simpl. rewrite (IH t H). reflexivity.
Qed.

Lemma frombuffer_int16_nth bs zs k :
  frombuffer_int16 bs = Some zs -> k < length zs ->
  nth k zs 0%Z = int16_of (nth (2 * k) bs Byte.x00) (nth (2 * k + 1) bs Byte.x00).
Proof.
  revert bs zs k. fix IH 1. intros [|a [|b t]] zs k H Hk; simpl in H.
  - inversion H; subst. simpl in Hk. lia.
  - discriminate.
  - destruct (frombuffer_int16 t) as [zs'|] eqn:E; simpl in H; [|discriminate].
    inversion H; subst. destruct k as [|k].
    + reflexivity.
    + simpl in Hk. replace (2 * S k) with (S (S (2 * k))) by lia.
      replace (S (S (2 * k)) + 1) with (S (S (2 * k + 1))) by lia.
      simpl. apply IH; auto. lia.
Qed.

Lemma read_wav_chunk_inl bs samples :
  read_wav_chunk bs = inl samples ->
  exists zs, frombuffer_int16 bs = Some zs /\
    samples = map (fun z => (inject_Z z * 256)%Q) zs.
Proof.
  unfold read_wav_chunk. destruct bs as [|b bs'].
  - intros H. inversion H; subst. exists []. split; reflexivity.
  - destruct (frombuffer_int16 (b :: bs')) as [zs|] eqn:E; intros H; [|discriminate].
    inversion H; subst. exists zs. split; reflexivity.
Qed.

Lemma to_int32_bounds x (lo hi : Z) :
  (inject_Z lo <= x)%Q -> (x <= inject_Z hi)%Q -> (lo <= to_int32 x <= hi)%Z.
Proof.
  destruct x as [n d]. unfold Qle, to_int32. simpl. rewrite !Z.mul_1_r.
  intros H1 H2.
  pose proof (Z.quot_rem n (Zpos d) ltac:(lia)) as E.
  pose proof (Z.rem_bound_abs n (Zpos d) ltac:(lia)) as B.
  destruct (Z.le_ge_cases 0 n) as [Hn|Hn].
  - pose proof (Z.rem_nonneg n (Zpos d) ltac:(lia) Hn).
    rewrite Z.abs_eq in B by lia. simpl in B. nia.
  - pose proof (Z.rem_nonpos n (Zpos d) ltac:(lia) Hn).
    rewrite Z.abs_neq in B by lia. simpl in B. nia.
Qed.

Lemma np_clip_bounds x :
  (inject_Z (-8388608) <= np_clip x (-8388608) 8388607)%Q /\
  (np_clip x (-8388608) 8388607 <= inject_Z 8388607)%Q.
Proof.
  unfold np_clip. destruct (Qle_bool (-8388608) x) eqn:E1.
  - apply Qle_bool_iff in E1. destruct (Qle_bool x 8388607) eqn:E2.
    + apply Qle_bool_iff in E2. split; assumption.
    + split; unfold Qle; simpl; lia.
  - replace (Qle_bool (-8388608) 8388607) with true by reflexivity.
    split; unfold Qle; simpl; lia.
Qed.

Lemma write_wav_chunk_cons x c :
  write_wav_chunk (x :: c) = sample_bytes x ++ write_wav_chunk c.
Proof. reflexivity. Qed.

Lemma write_wav_chunk_app c1 c2 :
  write_wav_chunk (c1 ++ c2) = write_wav_chunk c1 ++ write_wav_chunk c2.
Proof. unfold write_wav_chunk. rewrite map_app, concat_app. reflexivity. Qed.

Lemma write_wav_chunk_length c : length (write_wav_chunk c) = 3 * length c.
Proof.
  induction c as [|x c IH]; [reflexivity|].
  rewrite write_wav_chunk_cons, length_app, IH. simpl. lia.
Qed.

Lemma write_wav_chunk_nth c k d :
  k < length c ->
  firstn 3 (skipn (3 * k) (write_wav_chunk c)) = sample_bytes (nth k c d).
Proof.
  revert k; induction c as [|x c IH]; intros k Hk; [simpl in Hk; lia|].
  rewrite write_wav_chunk_cons. destruct k as [|k].
  - reflexivity.
  - replace (3 * S k) with (3 + 3 * k) by lia.
    replace (skipn (3 + 3 * k) (sample_bytes x ++ write_wav_chunk c))
      with (skipn (3 * k) (write_wav_chunk c)) by reflexivity.
    apply IH. simpl in Hk. lia.
Qed.

Lemma decode24_at_nth c k :
  k < length c ->
  decode24_at (write_wav_chunk c) k = to_int32 (np_clip (nth k c 0%Q) (-8388608) 8388607).
Proof.
  intros Hk. pose proof (write_wav_chunk_nth c k 0%Q Hk) as E.
  unfold decode24_at.
  assert (L : 3 * k + 2 < length (write_wav_chunk c)).
  { rewrite write_wav_chunk_length. lia. }
  remember (write_wav_chunk c) as w.
  assert (Hn : forall j, j < 3 -> nth (3 * k + j) w Byte.x00 = nth j (sample_bytes (nth k c 0%Q)) Byte.x00).
  { intros j Hj. rewrite <- E, nth_firstn, nth_skipn. 
    destruct (Nat.ltb_spec j 3); [reflexivity|lia]. }
  rewrite (Hn 1), (Hn 2) by lia.
  replace (3 * k) with (3 * k + 0) by lia. rewrite (Hn 0) by lia.
  unfold sample_bytes. cbn [nth]. apply decode24_bytes.
  destruct (np_clip_bounds (nth k c 0%Q)) as [H1 H2].
  apply (to_int32_bounds _ _ _ H1 H2).
Qed.

Lemma mod256_low a q : (0 <= a < 256)%Z -> ((a + 256 * q) mod 256 = a)%Z.
Proof.
  intros Ha. symmetry. apply (Z.mod_unique _ _ q); lia.
Qed.

Lemma sample_bytes_int16 lo hi :
  sample_bytes (inject_Z (int16_of lo hi) * 256) = [Byte.x00; lo; hi].
Proof.
  pose proof (int16_of_bounds lo hi) as Hb.
  set (s := int16_of lo hi) in *.
  assert (Hc : np_clip (inject_Z s * 256) (-8388608) 8388607 = (inject_Z s * 256)%Q).
  { unfold np_clip.
    replace (Qle_bool (-8388608) (inject_Z s * 256)%Q) with true
      by (symmetry; apply Qle_bool_iff; unfold Qle; simpl; lia).
    replace (Qle_bool (inject_Z s * 256)%Q 8388607) with true
      by (symmetry; apply Qle_bool_iff; unfold Qle; simpl; lia).
    reflexivity. }
  unfold sample_bytes. rewrite Hc.
  replace (to_int32 (inject_Z s * 256)%Q) with (s * 256)%Z
    by (unfold to_int32; simpl; rewrite Z.quot_1_r; reflexivity).
  rewrite !Z.shiftr_div_pow2 by lia.
  change (2 ^ 8)%Z with 256%Z. change (2 ^ 16)%Z with (256 * 256)%Z.
  rewrite <- Z.div_div, !Z.div_mul by lia.
  pose proof (u8_bounds lo) as Blo. pose proof (u8_bounds hi) as Bhi.
  assert (Hs : s = (u8 lo + 256 * (if (u8 lo + 256 * u8 hi <? 32768)%Z then u8 hi else u8 hi - 256))%Z).
  { unfold s, int16_of. destruct (Z.ltb_spec (u8 lo + 256 * u8 hi) 32768); lia. }
  assert (Hd : (s / 256 = if (u8 lo + 256 * u8 hi <? 32768)%Z then u8 hi else u8 hi - 256)%Z).
  { rewrite Hs. symmetry. apply (Z.div_unique _ _ _ (u8 lo)); [lia|ring]. }
  assert (B0 : byte_of_Z (s * 256) = Byte.x00).
  { apply byte_of_Z_eq. rewrite Z.mod_mul by lia. reflexivity. }
  assert (B1 : byte_of_Z s = lo).
  { apply byte_of_Z_eq. rewrite Hs, mod256_low; [reflexivity|lia]. }
  assert (B2 : byte_of_Z (s / 256) = hi).
  { apply byte_of_Z_eq. rewrite Hd.
    destruct (u8 lo + 256 * u8 hi <? 32768)%Z.
    - apply Z.mod_small. lia.
    - replace (u8 hi - 256)%Z with (u8 hi + 256 * -1)%Z by ring.
      apply mod256_low. lia. }
  rewrite B0, B1, B2. reflexivity.
Qed.

Lemma write_read_frombuffer bs zs :
  frombuffer_int16 bs = Some zs ->
  write_wav_chunk (map (fun z => (inject_Z z * 256)%Q) zs) = widen16 bs.
Proof.
  revert bs zs. fix IH 1. intros [|a [|b t]] zs H; simpl in H.
  - inversion H; subst. reflexivity.
  - discriminate.
  - destruct (frombuffer_int16 t) as [zs'|] eqn:E; simpl in H; [|discriminate].
    inversion H; subst. cbn [map]. rewrite write_wav_chunk_cons, sample_bytes_int16.
    simpl. rewrite (IH t zs' E). reflexivity.
Qed.

(** ** The driver loop *)

Lemma frombuffer_int16_app a b za :
  frombuffer_int16 a = Some za ->
  frombuffer_int16 (a ++ b) = option_map (app za) (frombuffer_int16 b).
Proof.
  revert a za. fix IH 1. intros [|x [|y t]] za H; simpl in H.
  - clear IH. inversion H; subst. simpl. destruct (frombuffer_int16 b); reflexivity.
  - discriminate.
  - destruct (frombuffer_int16 t) as [zt|] eqn:E; simpl in H; [|discriminate].
    inversion H; subst. simpl. rewrite (IH t zt E). clear IH.
    destruct (frombuffer_int16 b); reflexivity.
Qed.

Lemma read_wav_chunk_even bs :
  Nat.even (length bs) = true ->
  exists samples, read_wav_chunk bs = inl samples /\ length bs = 2 * length samples.
Proof.
  intros H. destruct (frombuffer_int16_even bs H) as [zs E].
  exists (map (fun z => (inject_Z z * 256)%Q) zs). split.
  - unfold read_wav_chunk. destruct bs; [inversion E; reflexivity|]. rewrite E. reflexivity.
  - rewrite length_map. apply frombuffer_int16_length. exact E.
Qed.

Lemma read_wav_chunk_app a b sa sb :
  Nat.even (length a) = true ->
  read_wav_chunk a = inl sa -> read_wav_chunk b = inl sb ->
  read_wav_chunk (a ++ b) = inl (sa ++ sb).
Proof.
  intros Ha Ea Eb.
  destruct (read_wav_chunk_inl a sa Ea) as (za & Fa & ->).
  destruct (read_wav_chunk_inl b sb Eb) as (zb & Fb & ->).
  assert (F : frombuffer_int16 (a ++ b) = Some (za ++ zb))
    by (rewrite (frombuffer_int16_app a b za Fa), Fb; reflexivity).
  unfold read_wav_chunk. destruct (a ++ b) as [|x l] eqn:Eab.
  - apply app_eq_nil in Eab as [-> ->]. simpl in Fa, Fb.
    inversion Fa; inversion Fb; reflexivity.
  - rewrite F, map_app. reflexivity.
Qed.

Lemma read_wav_chunk_nonempty bs samples :
  read_wav_chunk bs = inl samples -> length samples <> 0 -> bs <> [].
Proof. intros E Hl ->. simpl in E. inversion E; subst. simpl in Hl. lia. Qed.

(** The loop only stops on an empty read: any fuel above [length rest]
    gives the same run. *)
Lemma upscale_loop_fuel lib fuel fuel' fsize total rest p st :
  length rest < fuel -> length rest < fuel' ->
  upscale_loop lib fuel fsize total rest p st =
  upscale_loop lib fuel' fsize total rest p st.
Proof.
  revert fuel' rest p st.
  induction fuel as [|f IH]; intros fuel' rest p st H1 H2; [lia|].
  destruct fuel' as [|f']; [lia|].
  cbn [upscale_loop].
  destruct (read_wav_chunk (firstn (chunk_size * fsize) rest)) as [c|e] eqn:Er;
    cbn [liftR bindD retD raiseD]; [|reflexivity].
  destruct (Nat.eqb (length c) 0) eqn:Ec; [reflexivity|].
  unfold bindD. destruct (liftD (interpolate_chunk lib c) st) as [[o|e] s1]; [|reflexivity].
  destruct (writeframes (write_wav_chunk o) s1) as [[u|e] s2]; [|reflexivity].
  destruct (update_progress (p + length c / 2) total s2) as [[u'|e] s3]; [|reflexivity].
  apply Nat.eqb_neq in Ec. pose proof (read_wav_chunk_nonempty _ _ Er Ec) as Hne.
  assert (0 < chunk_size * fsize).
  { destruct (chunk_size * fsize); [simpl in Hne; contradiction|lia]. }
  destruct rest; [simpl in Hne; rewrite firstn_nil in Hne; contradiction|].
  apply IH; rewrite length_skipn; cbn [length] in *; lia.
Qed.

Lemma interpolate_chunk_even lib c s :
  method_literal (method s) = true -> c <> [] -> Nat.even (length c) = true ->
  exists out s', interpolate_chunk lib c s = (inl out, s') /\
    method s' = method s /\
    length (chunk_end_sample s') = length (chunk_end_sample s).
Proof.
  intros Hm Hne Hev. destruct (reshape2_even c Hev) as [frames Hr].
  destruct (interpolate_chunk_effect lib c frames s Hm Hne Hr)
    as (o & s1 & E & Hm1 & _ & _ & Hcl & _).
  exists (flatten o), s1. auto.
Qed.

Lemma process_stream_cons lib c cs s :
  process_stream lib (c :: cs) s =
  match interpolate_chunk lib c s with
  | (inl o, s1) =>
      match process_stream lib cs s1 with
      | (inl os, s2) => (inl (o ++ os), s2)
      | (inr e, s2) => (inr e, s2)
      end
  | (inr e, s1) => (inr e, s1)
  end.
Proof.
  cbn [process_stream]. unfold bind.
  destruct (interpolate_chunk lib c s) as [[o|e] s1]; [|reflexivity].
  destruct (process_stream lib cs s1) as [[os|e] s2]; reflexivity.
Qed.

Lemma upscale_loop_ok lib fuel total rest p s d :
  method_literal (method s) = true -> length (chunk_end_sample s) = 2 ->
  length rest < fuel -> length rest mod 4 = 0 -> (rest = [] \/ 0 < total) ->
  exists chunks outs s',
    upscale_loop lib fuel 4 total rest p (mk_drv s (Some d)) =
      (inl tt, mk_drv s' (Some (d ++ write_wav_chunk outs))) /\
    process_stream lib chunks s = (inl outs, s') /\
    read_wav_chunk rest = inl (concat chunks) /\
    chunk_shape chunks /\
    method s' = method s /\ length (chunk_end_sample s') = 2.
Proof.
  revert rest p s d.
  induction fuel as [|f IH]; intros rest p s d Hm Hcl Hf H4 Ht; [lia|].
  destruct rest as [|b r].
  - exists [], [], s. cbn [upscale_loop]. rewrite firstn_nil.
    cbn [read_wav_chunk liftR bindD retD length Nat.eqb].
    replace (d ++ write_wav_chunk []) with d by (symmetry; apply app_nil_r).
    split; [reflexivity|]. split; [reflexivity|]. split; [reflexivity|].
    split; [split; constructor|]. auto.
  - set (rest := b :: r) in *.
    assert (Hn : chunk_size * 4 = 4096) by reflexivity.
    set (first := firstn (chunk_size * 4) rest).
    assert (Hlf : length first = Nat.min 4096 (length rest))
      by (unfold first; rewrite length_firstn, Hn; reflexivity).
    assert (Hlr : 0 < length rest) by (unfold rest; cbn [length]; lia).
    assert (Hf4 : length first mod 4 = 0).
    { rewrite Hlf. destruct (Nat.le_ge_cases 4096 (length rest)).
      - rewrite Nat.min_l by lia. reflexivity.
      - rewrite Nat.min_r by lia. exact H4. }
    assert (Hev : Nat.even (length first) = true).
    { apply Nat.even_spec. exists (2 * (length first / 4)).
      pose proof (Nat.div_mod (length first) 4 ltac:(lia)). lia. }
    destruct (read_wav_chunk_even first Hev) as (c & Ec & Hlc).
    assert (Hc0 : length c <> 0) by lia.
    assert (Hcne : c <> []) by (intro; subst; simpl in Hc0; lia).
    assert (Hcev : Nat.even (length c) = true).
    { apply Nat.even_spec. exists (length first / 4).
      pose proof (Nat.div_mod (length first) 4 ltac:(lia)). lia. }
    destruct (interpolate_chunk_even lib c s Hm Hcne Hcev) as (o & s1 & E1 & Hm1 & Hcl1).
    destruct Ht as [Ht|Ht]; [discriminate|].
    set (rest' := skipn (chunk_size * 4) rest).
    assert (Hlr' : length rest' = length rest - length first)
      by (unfold rest'; rewrite length_skipn, Hlf, Hn; lia).
    destruct (IH rest' (p + length c / 2) s1 (d ++ write_wav_chunk o))
      as (chunks & outs & s' & El & Es & Er & Hsh & Hm' & Hcl');
      [congruence|congruence| | |right; exact Ht|].
    { rewrite Hlr'. cbn [length rest] in Hf |- *. lia. }
    { rewrite Hlr'. pose proof (Nat.div_mod (length rest) 4 ltac:(lia)).
      pose proof (Nat.div_mod (length first) 4 ltac:(lia)).
      assert (Hle : length first <= length rest) by lia.
      assert (E4 : length rest - length first = (length rest / 4 - length first / 4) * 4)
        by lia.
      rewrite E4. apply Nat.Div0.mod_mul. }
    exists (c :: chunks), (o ++ outs), s'. split; [|split; [|split; [|split]]].
    + cbn [upscale_loop]. fold first. rewrite Ec. cbn [liftR bindD retD].
      apply Nat.eqb_neq in Hc0. rewrite Hc0.
      unfold bindD at 1. unfold liftD at 1. cbn [interpolator out_file]. rewrite E1.
      cbv beta iota delta [bindD writeframes update_progress].
      cbn [interpolator out_file].
      replace (Nat.eqb total 0) with false
        by (symmetry; apply Nat.eqb_neq; lia).
      cbn [retD]. fold rest'. rewrite El.
      rewrite write_wav_chunk_app, app_assoc. reflexivity.
    + rewrite process_stream_cons, E1, Es. reflexivity.
    + cbn [concat]. rewrite <- (firstn_skipn (chunk_size * 4) rest). fold first rest'.
      apply read_wav_chunk_app; assumption.
    + destruct Hsh as [Hall Hlast]. split.
      * constructor; [|exact Hall]. split; [lia|exact Hcev].
      * destruct chunks as [|c2 chunks']; [constructor|].
        cbn [removelast]. constructor; [|exact Hlast].
        assert (Hne' : rest' <> []).
        { intros E. rewrite E in Er. simpl in Er. inversion Er as [Hcat].
          inversion Hall as [|? ? [Hpos _] _]; subst.
          destruct c2; [simpl in Hpos; lia|discriminate]. }
        assert (Hbig : 4096 < length rest).
        { destruct (Nat.le_gt_cases (length rest) 4096); [|assumption].
          exfalso. apply Hne'. apply length_zero_iff_nil. lia. }
        unfold chunk_size. lia.
    + split; congruence.
Qed.

Lemma validate_wav_file_true w r ew :
  fst (validate_wav_file (inl w) r ew) = true <->
  nchannels (params w) = 2 /\ (ew = 0 \/ sampwidth (params w) = ew) /\
  framerate (params w) = r.
Proof.
  unfold validate_wav_file.
  destruct (Nat.eqb_spec (nchannels (params w)) 2) as [Hc|Hc]; cbn [negb];
    [|split; [discriminate|intros (? & _); contradiction]].
  destruct (Nat.eqb_spec ew 0) as [He|He]; cbn [negb andb];
  [|destruct (Nat.eqb_spec (sampwidth (params w)) ew) as [Hs|Hs]; cbn [negb andb];
    [|split; [discriminate|intros (_ & [?|?] & _); contradiction]]];
  (destruct (Nat.eqb_spec (framerate (params w)) r) as [Hr|Hr]; cbn [negb fst];
    [split; auto|split; [discriminate|intros (_ & _ & ?); contradiction]]).
Qed.

Lemma validate_wav_file_msg opened r ew :
  fst (validate_wav_file opened r ew) = true ->
  validate_wav_file opened r ew = (true, "Valid WAV file"%string).
Proof.
  unfold validate_wav_file. destruct opened as [w|m]; [|discriminate].
  destruct (negb (nchannels (params w) =? 2)); [discriminate|].
  destruct (negb (ew =? 0) && negb (sampwidth (params w) =? ew)); [discriminate|].
  destruct (negb (framerate (params w) =? r)); [discriminate|reflexivity].
Qed.

Lemma validate_output_params d :
  validate_wav_file
    (inl {| params := {| nchannels := wh_channels; sampwidth := wh_sampwidth;
                         framerate := 44100 * 4 |};
            frames_data := d |}) 176400 3 = (true, "Valid WAV file"%string).
Proof. reflexivity. Qed.

(** Once the input passes [validate_wav_file], [process_file] is decided
    by the opening of the output, the run of the loop and the reading back
    of the output: the format checks of the output verification always
    pass. *)
Lemma process_file_valid lib e inp out s w :
  open_rb e inp = inl w -> fst (validate_wav_file (inl w) 44100 2) = true ->
  process_file lib e inp out s =
  match open_wb e out with
  | Some m => (((false, String.append "Error processing file: " m), None), s)
  | None =>
      match upscale_loop lib (S (length (frames_data w))) 4
              (length (frames_data w) / 4) (frames_data w) 0
              (mk_drv (reset s) (Some [])) with
      | (inl _, st) =>
          match reopen_rb e out with
          | None =>
              (((true, "File processed successfully"%string), out_file st), interpolator st)
          | Some m =>
              match remove_file e out with
              | None =>
                  (((false, String.append "Output file verification failed: "
                              (String.append "Error validating file: " m)), None),
                   interpolator st)
              | Some m' =>
                  (((false, String.append "Error processing file: " m'), out_file st),
                   interpolator st)
              end
          end
      | (inr ex, st) =>
          (((false, String.append "Error processing file: " (exn_str ex)), out_file st),
           interpolator st)
      end
  end.
Proof.
  intros Ho Hv.
  pose proof Hv as Hv'. apply validate_wav_file_true in Hv' as (Hc & [Hw|Hw] & Hr);
    [discriminate|].
  unfold process_file. rewrite Ho, (validate_wav_file_msg _ _ _ Hv). cbn [negb].
  unfold process_body, setup_output_wav. rewrite Ho.
  destruct (open_wb e out) as [m|];
    cbv beta iota zeta delta [bindD retD raiseD getD putD create_output];
    cbn [interpolator out_file]; [reflexivity|].
  rewrite Hr.
  replace (Nat.eqb (44100 * 4) 0) with false by reflexivity.
  unfold get_total_frames, framesize. rewrite Hc, Hw.
  change (2 * 2) with 4.
  change (mk_drv (reset (interpolator (mk_drv s (Some []))))
                 (out_file (mk_drv s (Some [])))) with (mk_drv (reset s) (Some [])).
  destruct (upscale_loop lib (S (length (frames_data w))) 4 (length (frames_data w) / 4)
              (frames_data w) 0 (mk_drv (reset s) (Some []))) as [[u|ex] st];
    [|reflexivity].
  unfold output_data.
  destruct (reopen_rb e out) as [m|].
  - cbn [validate_wav_file negb]. unfold remove_output.
    destruct (remove_file e out); reflexivity.
  - rewrite validate_output_params. reflexivity.
Qed.

Lemma valid_input_params w :
  nchannels (params w) = 2 -> sampwidth (params w) = 2 -> framerate (params w) = 44100 ->
  fst (validate_wav_file (inl w) 44100 2) = true.
Proof. intros Hc Hw Hr. apply validate_wav_file_true. auto. Qed.

Lemma total_pos (d : list Byte.byte) :
  length d mod 4 = 0 -> d = [] \/ 0 < length d / 4.
Proof.
  intros H. destruct d as [|b r]; [left; reflexivity|right].
  pose proof (Nat.div_mod (length (b :: r)) 4 ltac:(lia)). cbn [length] in *. lia.
Qed.


Lemma chunk_shape_even chunks :
  chunk_shape chunks -> Forall (fun c => exists n, length c = 2 * n) chunks.
Proof.
  intros [Hall _]. eapply Forall_impl; [|exact Hall].
  intros c [_ Hev]. apply Nat.even_spec in Hev as [n Hn]. exists n. exact Hn.
Qed.



Lemma validate_wav_file_false_msg opened r ew msg :
  validate_wav_file opened r ew = (false, msg) ->
  (exists x, msg = String.append "Error validating file: " x) \/
  (exists x, msg = String.append "File must be " x).
Proof.
  unfold validate_wav_file. destruct opened as [w|x].
  - destruct (negb (nchannels (params w) =? 2));
      [intros E; inversion E; right; exists "stereo (2 channels)"%string; reflexivity|].
    destruct (negb (ew =? 0) && negb (sampwidth (params w) =? ew));
      [intros E; inversion E; right; eexists; reflexivity|].
    destruct (negb (framerate (params w) =? r));
      [intros E; inversion E; right; eexists; reflexivity|discriminate].
  - intros E. inversion E. left. eexists. reflexivity.
Qed.

(** [process_file] reports [Output file verification failed] only when
    reading back the output file it has written raises: the format checks
    of the verification (2 channels, 3-byte samples, 176400 Hz) always pass
    on it.  The message is then [Error validating file: ] with the text of
    that exception, and [os.remove] has deleted the output file. *)
Theorem process_file_verification_failed lib e inp out s m :
  fst (fst (process_file lib e inp out s)) =
    (false, String.append "Output file verification failed: " m) ->
  exists x, reopen_rb e out = Some x /\ remove_file e out = None /\
    m = String.append "Error validating file: " x /\
    snd (fst (process_file lib e inp out s)) = None.
Proof.
  destruct (validate_wav_file (open_rb e inp) 44100 2) as [valid msg] eqn:Hv.
  destruct valid.
  - destruct (open_rb e inp) as [w|x] eqn:Ho; [|discriminate].
    rewrite (process_file_valid lib e inp out s w Ho ltac:(rewrite Hv; reflexivity)).
    destruct (open_wb e out); [cbn [fst]; intros E; injection E as E; discriminate E|].
    destruct (upscale_loop _ _ _ _ _ _ _) as [[u|ex] st];
      [|cbn [fst]; intros E; injection E as E; discriminate E].
    destruct (reopen_rb e out) as [x|] eqn:Hrb; [|discriminate].
    destruct (remove_file e out) as [m'|] eqn:Hrm;
      [cbn [fst]; intros E; injection E as E; discriminate E|].
    cbn [fst snd]. intros E. injection E as E.
    exists x. exact (conj eq_refl (conj eq_refl (conj (eq_sym E) eq_refl))).
  - unfold process_file. rewrite Hv. cbn [negb fst].
    destruct (validate_wav_file_false_msg _ _ _ _ Hv) as [[x ->]|[x ->]];
      intros E; injection E as E; discriminate E.
Qed.

Lemma process_file_verification_failed_witness :
  exists x, reopen_rb (unreadable_env sample_wav) "out.wav" = Some x /\
    remove_file (unreadable_env sample_wav) "out.wav" = None /\
    String.append "Error validating file: " "[Errno 13] Permission denied: 'out.wav'" =
      String.append "Error validating file: " x /\
    snd (fst (process_file lib_pchip (unreadable_env sample_wav) "in.wav" "out.wav"
                (init "pchip"))) = None.
Proof.
  apply (process_file_verification_failed lib_pchip (unreadable_env sample_wav) "in.wav"
           "out.wav" (init "pchip")
           (String.append "Error validating file: "
              "[Errno 13] Permission denied: 'out.wav'")).
  reflexivity.
Defined.

(** [process_file] on a valid 16-bit stereo 44.1 kHz input whose data
    chunk holds whole frames, with an output that opens for writing but
    whose reading back raises: when [os.remove] succeeds, it returns
    [Output file verification failed: Error validating file: <error>] and
    the output file is gone; when [os.remove] raises too, the [except]
    reports [Error processing file: <error of os.remove>] and the written
    file stays. *)
Theorem process_file_unreadable_output lib e inp out s w x :
  open_rb e inp = inl w ->
  nchannels (params w) = 2 -> sampwidth (params w) = 2 -> framerate (params w) = 44100 ->
  open_wb e out = None -> reopen_rb e out = Some x ->
  length (frames_data w) mod 4 = 0 ->
  method_literal (method s) = true -> length (chunk_end_sample s) = 2 ->
  exists written s',
    process_file lib e inp out s =
      match remove_file e out with
      | None =>
          (((false, String.append "Output file verification failed: "
                      (String.append "Error validating file: " x)), None), s')
      | Some m' =>
          (((false, String.append "Error processing file: " m'), Some written), s')
      end /\
    length written = 6 * length (frames_data w).
Proof.
  intros Ho Hc Hw Hr Hwb Hrb H4 Hm Hcl.
  rewrite (process_file_valid lib e inp out s w Ho (valid_input_params w Hc Hw Hr)), Hwb.
  destruct (upscale_loop_ok lib (S (length (frames_data w))) (length (frames_data w) / 4)
              (frames_data w) 0 (reset s) [] Hm Hcl ltac:(lia) H4 (total_pos _ H4))
    as (chunks & outs & s' & El & Es & Er & Hsh & _ & _).
  rewrite El, Hrb. exists (write_wav_chunk outs), s'. split.
  - destruct (remove_file e out); reflexivity.
  - destruct (process_stream_length lib chunks (reset s) Hm (chunk_shape_even _ Hsh))
      as (outs' & s'' & Es' & Hlo).
    rewrite Es in Es'. inversion Es'; subst outs' s''.
    destruct (read_wav_chunk_even (frames_data w)) as (samples & Er' & Hls).
    { apply Nat.even_spec. exists (2 * (length (frames_data w) / 4)).
      pose proof (Nat.div_mod (length (frames_data w)) 4 ltac:(lia)). lia. }
    rewrite Er in Er'. inversion Er'; subst samples.
    rewrite write_wav_chunk_length, Hlo. lia.
Qed.

Lemma process_file_unreadable_output_witness :
  exists (written : list Byte.byte) s',
    process_file lib_pchip (unreadable_env sample_wav) "in.wav" "out.wav" (init "pchip") =
      (((false, String.append "Output file verification failed: "
                  (String.append "Error validating file: "
                     "[Errno 13] Permission denied: 'out.wav'")), None), s') /\
    length written = 6 * length (frames_data sample_wav).
Proof.
  apply (process_file_unreadable_output lib_pchip (unreadable_env sample_wav) "in.wav"
           "out.wav" (init "pchip") sample_wav "[Errno 13] Permission denied: 'out.wav'");
    reflexivity.
Defined.

Lemma reshape2_odd l : Nat.even (length l) = false -> reshape2 l = None.
Proof.
  revert l. fix IH 1. intros [|a [|b t]] H.
  - discriminate.
  - reflexivity.
  - simpl in H. simpl. rewrite (IH t H). reflexivity.
Qed.

Lemma interpolate_chunk_odd lib c s :
  Nat.even (length c) = false ->
  interpolate_chunk lib c s = (inr (ValueError (reshape_msg (length c))), s).
Proof.
  intros H. unfold interpolate_chunk.
  destruct (Nat.eqb_spec (length c) 0) as [E|E]; [rewrite E in H; discriminate|].
  unfold bind, get. rewrite (reshape2_odd c H). reflexivity.
Qed.

Lemma read_wav_chunk_odd bs :
  Nat.even (length bs) = false ->
  read_wav_chunk bs = inr (ValueError "buffer size must be a multiple of element size").
Proof.
  intros H. unfold read_wav_chunk. destruct bs as [|b bs']; [discriminate|].
  rewrite (frombuffer_int16_odd _ H). reflexivity.
Qed.






(** [process_file] with an interpolator whose [method] is none of
    ['cubic', 'akima', 'pchip', 'repeat'], on a valid 16-bit stereo
    44.1 kHz input whose data chunk holds at least one frame and only whole
    frames, with an output that opens for writing: the [ValueError] raised
    by [interpolate_chunk] on the first chunk is reported as [Error
    processing file: Unknown interpolation method: <method>], the output
    file is left with its header and no frames, and the interpolator is
    left as [reset] made it. *)
Theorem process_file_unknown_method lib e inp out s w :
  open_rb e inp = inl w ->
  nchannels (params w) = 2 -> sampwidth (params w) = 2 -> framerate (params w) = 44100 ->
  open_wb e out = None ->
  frames_data w <> [] -> length (frames_data w) mod 4 = 0 ->
  method_literal (method s) = false ->
  process_file lib e inp out s =
    (((false, String.append "Error processing file: "
                (String.append "Unknown interpolation method: " (method s))), Some []),
     reset s).
Proof.
  intros Ho Hc Hw Hr Hwb Hne H4 Hm.
  rewrite (process_file_valid lib e inp out s w Ho (valid_input_params w Hc Hw Hr)), Hwb.
  set (d := frames_data w) in *.
  assert (Hn : chunk_size * 4 = 4096) by reflexivity.
  cbn [upscale_loop]. rewrite Hn.
  set (first := firstn 4096 d).
  assert (Hld : 0 < length d) by (destruct d; [contradiction|cbn [length]; lia]).
  assert (Hf4 : length first mod 4 = 0 /\ 0 < length first).
  { unfold first. rewrite length_firstn.
    destruct (Nat.le_ge_cases 4096 (length d)).
    - rewrite Nat.min_l by lia. split; [reflexivity|lia].
    - rewrite Nat.min_r by lia. auto. }
  destruct Hf4 as [Hf4 Hfp].
  pose proof (Nat.div_mod (length first) 4 ltac:(lia)) as Df.
  destruct (read_wav_chunk_even first) as (c & Ec & Hlc).
  { apply Nat.even_spec. exists (2 * (length first / 4)). lia. }
  rewrite Ec. cbn [liftR bindD retD].
  assert (Hc0 : length c <> 0) by lia.
  destruct (reshape2_even c) as [frames Hresh].
  { apply Nat.even_spec. exists (length first / 4). lia. }
  destruct frames as [|f frames].
  { apply reshape2_length in Hresh. simpl in Hresh. lia. }
  apply Nat.eqb_neq in Hc0. rewrite Hc0.
  unfold bindD, liftD. cbn [interpolator out_file].
  rewrite (interpolate_chunk_unknown lib c f frames (reset s) Hm Hresh).
  reflexivity.
Qed.

Lemma process_file_unknown_method_witness :
  process_file lib_pchip (sample_env sample_wav) "in.wav" "out.wav" (init "linear") =
    (((false, String.append "Error processing file: "
                (String.append "Unknown interpolation method: " "linear")), Some []),
     reset (init "linear")).
Proof.
  apply (process_file_unknown_method lib_pchip (sample_env sample_wav) "in.wav" "out.wav"
           (init "linear") sample_wav); try reflexivity. discriminate.
Defined.

Lemma upscale_loop_no_zero_division lib fuel total rest p st :
  (4 <= length rest -> 0 < total) ->
  fst (upscale_loop lib fuel 4 total rest p st) <> inr ZeroDivisionError.
Proof.
  revert total rest p st.
  induction fuel as [|f IH]; intros total rest p st Ht; [discriminate|].
  cbn [upscale_loop].
  destruct (read_wav_chunk (firstn (chunk_size * 4) rest)) as [c|er] eqn:Er;
    cbn [liftR bindD retD raiseD]; [|discriminate].
  destruct (Nat.eqb_spec (length c) 0) as [Hc0|Hc0]; [discriminate|].
  unfold bindD at 1. unfold liftD at 1.
  destruct (interpolate_chunk lib c (interpolator st)) as [[o|er] s1] eqn:E1; [|discriminate].
  assert (Hev : Nat.even (length c) = true).
  { destruct (Nat.even (length c)) eqn:Hce; [reflexivity|].
    rewrite (interpolate_chunk_odd lib c _ Hce) in E1. discriminate. }
  apply Nat.even_spec in Hev as [k Hk].
  destruct (read_wav_chunk_inl _ _ Er) as (zs & Fz & Hzs).
  apply frombuffer_int16_length in Fz.
  assert (Hl4 : 4 <= length rest).
  { rewrite Hzs, length_map in Hk, Hc0. rewrite length_firstn in Fz. lia. }
  cbv beta iota delta [bindD writeframes update_progress].
  replace (Nat.eqb total 0) with false
    by (symmetry; apply Nat.eqb_neq; specialize (Ht Hl4); lia).
  cbv beta iota delta [retD]. apply IH. intros _. exact (Ht Hl4).
Qed.

(** [process_file] computes [total_frames] as the number of frames of the
    input and [processed_frames] only grows after a chunk of at least one
    frame: once the input has passed [validate_wav_file], the
    [current / total] of [_update_progress] never divides by zero. *)
Theorem process_body_no_zero_division lib e inp out st w :
  open_rb e inp = inl w -> fst (validate_wav_file (inl w) 44100 2) = true ->
  fst (process_body lib e inp out st) <> inr ZeroDivisionError.
Proof.
  intros Ho Hv.
  apply validate_wav_file_true in Hv as (Hc & [Hw|Hw] & Hr); [discriminate|].
  unfold process_body, setup_output_wav. rewrite Ho.
  destruct (open_wb e out) as [m|];
    cbv beta iota zeta delta [bindD retD raiseD getD putD create_output];
    cbn [interpolator out_file]; [discriminate|].
  rewrite Hr.
  replace (Nat.eqb (44100 * 4) 0) with false by reflexivity.
  unfold get_total_frames, framesize. rewrite Hc, Hw. change (2 * 2) with 4.
  change (mk_drv (reset (interpolator (mk_drv (interpolator st) (Some []))))
                 (out_file (mk_drv (interpolator st) (Some []))))
    with (mk_drv (reset (interpolator st)) (Some [])).
  pose proof (upscale_loop_no_zero_division lib (S (length (frames_data w)))
                (length (frames_data w) / 4) (frames_data w) 0
                (mk_drv (reset (interpolator st)) (Some []))) as H.
  destruct (upscale_loop lib (S (length (frames_data w))) 4 (length (frames_data w) / 4)
              (frames_data w) 0 (mk_drv (reset (interpolator st)) (Some []))) as [[u|ex] st'].
  - unfold output_data. destruct (reopen_rb e out) as [m|].
    + cbn [validate_wav_file negb]. unfold remove_output.
      destruct (remove_file e out); discriminate.
    + rewrite validate_output_params. discriminate.
  - cbn [fst] in H |- *. intros E. injection E as ->.
    apply H; [intros; apply Nat.div_str_pos; lia|reflexivity].
Qed.

Lemma process_body_no_zero_division_witness :
  fst (process_body lib_pchip (sample_env sample_wav) "in.wav" "out.wav"
         (mk_drv (init "pchip") None))
  <> inr ZeroDivisionError.
Proof.
  apply (process_body_no_zero_division lib_pchip (sample_env sample_wav) "in.wav" "out.wav"
           (mk_drv (init "pchip") None) sample_wav); reflexivity.
Defined.



Lemma map_nth_lt {A B} (f : A -> B) l k da db :
  k < length l -> nth k (map f l) db = f (nth k l da).
Proof.
  intros Hk. rewrite (nth_indep (map f l) db (f da)) by (rewrite length_map; exact Hk).
  apply map_nth.
Qed.










(** ** Bytes in and out *)

Lemma to_int32_lower x (lo : Z) : (inject_Z lo <= x)%Q -> (lo <= to_int32 x)%Z.
Proof.
  destruct x as [n d]. unfold Qle, to_int32. simpl. rewrite Z.mul_1_r.
  intros H1.
  pose proof (Z.quot_rem n (Zpos d) ltac:(lia)) as E.
  pose proof (Z.rem_bound_abs n (Zpos d) ltac:(lia)) as B.
  destruct (Z.le_ge_cases 0 n) as [Hn|Hn].
  - pose proof (Z.rem_nonneg n (Zpos d) ltac:(lia) Hn).
    rewrite Z.abs_eq in B by lia. simpl in B. nia.
  - pose proof (Z.rem_nonpos n (Zpos d) ltac:(lia) Hn).
    rewrite Z.abs_neq in B by lia. simpl in B. nia.
Qed.

Lemma to_int32_upper x (hi : Z) : (x <= inject_Z hi)%Q -> (to_int32 x <= hi)%Z.
Proof.
  destruct x as [n d]. unfold Qle, to_int32. simpl. rewrite Z.mul_1_r.
  intros H2.
  pose proof (Z.quot_rem n (Zpos d) ltac:(lia)) as E.
  pose proof (Z.rem_bound_abs n (Zpos d) ltac:(lia)) as B.
  destruct (Z.le_ge_cases 0 n) as [Hn|Hn].
  - pose proof (Z.rem_nonneg n (Zpos d) ltac:(lia) Hn).
    rewrite Z.abs_eq in B by lia. simpl in B. nia.
  - pose proof (Z.rem_nonpos n (Zpos d) ltac:(lia) Hn).
    rewrite Z.abs_neq in B by lia. simpl in B. nia.
Qed.

Lemma to_int32_clip x :
  to_int32 (np_clip x (-8388608) 8388607) =
  Z.max (-8388608) (Z.min 8388607 (to_int32 x)).
Proof.
  unfold np_clip. destruct (Qle_bool (-8388608) x) eqn:E1.
  - apply Qle_bool_iff in E1. destruct (Qle_bool x 8388607) eqn:E2.
    + apply Qle_bool_iff in E2.
      pose proof (to_int32_lower x (-8388608) E1).
      pose proof (to_int32_upper x 8388607 E2). lia.
    + assert (H : (inject_Z 8388607 <= x)%Q).
      { apply Qlt_le_weak, Qnot_le_lt. intros H.
        assert (Qle_bool x 8388607 = true) by (apply Qle_bool_iff; exact H). congruence. }
      pose proof (to_int32_lower x 8388607 H).
      replace (to_int32 8388607) with 8388607%Z by reflexivity. lia.
  - replace (Qle_bool (-8388608) 8388607) with true by reflexivity.
    assert (H : (x <= inject_Z (-8388608))%Q).
    { apply Qlt_le_weak, Qnot_le_lt. intros H.
      assert (Qle_bool (-8388608) x = true) by (apply Qle_bool_iff; exact H). congruence. }
    pose proof (to_int32_upper x (-8388608) H).
    replace (to_int32 (-8388608)) with (-8388608)%Z by reflexivity. lia.
Qed.

(** [read_wav_chunk] on an odd number of bytes: [np.frombuffer] raises its
    [ValueError]. *)
Theorem read_wav_chunk_odd_length bs :
  Nat.even (length bs) = false ->
  read_wav_chunk bs = inr (ValueError "buffer size must be a multiple of element size").
Proof. apply read_wav_chunk_odd. Qed.

Lemma read_wav_chunk_odd_length_witness :
  read_wav_chunk [Byte.x01; Byte.x02; Byte.x03] =
    inr (ValueError "buffer size must be a multiple of element size").
Proof. apply read_wav_chunk_odd_length. reflexivity. Defined.

(** [read_wav_chunk] on an even number of bytes gives one value per
    little-endian signed 16-bit sample, in order, multiplied by 256; every
    value lies in [-8388608, 8388352]. *)
Theorem read_wav_chunk_samples bs :
  Nat.even (length bs) = true ->
  exists samples, read_wav_chunk bs = inl samples /\
    length bs = 2 * length samples /\
    forall k, k < length samples ->
      nth k samples 0%Q =
        (inject_Z (int16_of (nth (2 * k) bs Byte.x00) (nth (2 * k + 1) bs Byte.x00)) * 256)%Q /\
      (inject_Z (-8388608) <= nth k samples 0%Q <= inject_Z 8388352)%Q.
Proof.
  intros Hev. destruct (read_wav_chunk_even bs Hev) as (samples & E & Hl).
  exists samples. split; [exact E|]. split; [exact Hl|].
  intros k Hk.
  destruct (read_wav_chunk_inl _ _ E) as (zs & F & ->).
  rewrite length_map in Hk.
  rewrite (map_nth_lt _ zs _ 0%Z) by exact Hk.
  rewrite (frombuffer_int16_nth _ _ _ F Hk). split; [reflexivity|].
  pose proof (int16_of_bounds (nth (2 * k) bs Byte.x00) (nth (2 * k + 1) bs Byte.x00)).
  set (z := int16_of (nth (2 * k) bs Byte.x00) (nth (2 * k + 1) bs Byte.x00)) in *.
  split; unfold Qle; simpl; lia.
Qed.

Lemma read_wav_chunk_samples_witness :
  exists samples, read_wav_chunk [Byte.x01; Byte.xff] = inl samples /\
    length [Byte.x01; Byte.xff] = 2 * length samples /\
    forall k, k < length samples ->
      nth k samples 0%Q =
        (inject_Z (int16_of (nth (2 * k) [Byte.x01; Byte.xff] Byte.x00)
                     (nth (2 * k + 1) [Byte.x01; Byte.xff] Byte.x00)) * 256)%Q /\
      (inject_Z (-8388608) <= nth k samples 0%Q <= inject_Z 8388352)%Q.
Proof. apply read_wav_chunk_samples. reflexivity. Defined.

(** [write_wav_chunk] writes 3 bytes per sample; sample [k] read back as a
    signed little-endian 24-bit value is the input value truncated toward
    zero and clamped to [-8388608, 8388607]: integers in that range come
    back exactly, larger ones saturate. *)
Theorem write_wav_chunk_decode c k :
  k < length c ->
  length (write_wav_chunk c) = 3 * length c /\
  decode24_at (write_wav_chunk c) k =
    Z.max (-8388608) (Z.min 8388607 (to_int32 (nth k c 0%Q))).
Proof.
  intros Hk. split; [apply write_wav_chunk_length|].
  rewrite (decode24_at_nth c k Hk). apply to_int32_clip.
Qed.

Lemma write_wav_chunk_decode_witness :
  length (write_wav_chunk [3 # 2; 10000000; -9000001 # 2]%Q) = 3 * 3 /\
  decode24_at (write_wav_chunk [3 # 2; 10000000; -9000001 # 2]%Q) 2 =
    Z.max (-8388608) (Z.min 8388607 (to_int32 (-9000001 # 2)%Q)).
Proof. apply (write_wav_chunk_decode [3 # 2; 10000000; -9000001 # 2]%Q 2). cbn; lia. Defined.

(** Reading a chunk and writing it back as it was read (no
    interpolation): each 16-bit sample [lo, hi] becomes the 24-bit sample
    [0, lo, hi], that is the same value scaled by 256. *)
Theorem read_then_write_widens bs samples :
  read_wav_chunk bs = inl samples -> write_wav_chunk samples = widen16 bs.
Proof.
  intros E. destruct (read_wav_chunk_inl _ _ E) as (zs & F & ->).
  apply write_read_frombuffer. exact F.
Qed.

Lemma read_then_write_widens_witness :
  write_wav_chunk [(-256)%Q] = widen16 [Byte.xff; Byte.xff].
Proof. apply read_then_write_widens. reflexivity. Defined.

(** ** [main] *)




(** ** [os.path.dirname] *)

Lemma last_sep_end_none l pos best :
  forallb (fun c => negb (is_sep c)) l = true -> last_sep_end l pos best = best.
Proof.
  revert pos best; induction l as [|c l IH]; intros pos best H; [reflexivity|].
  simpl in H. apply andb_prop in H as [Hc Hl]. simpl.
  unfold is_sep in Hc. destruct (Ascii.eqb c "/"%char); [discriminate|].
  apply IH. exact Hl.
Qed.

Lemma last_sep_end_app l1 l2 pos best :
  forallb (fun c => negb (is_sep c)) l2 = true ->
  last_sep_end (l1 ++ ["/"%char] ++ l2) pos best = pos + length l1 + 1.
Proof.
  revert pos best; induction l1 as [|c l1 IH]; intros pos best H.
  - simpl. rewrite last_sep_end_none by exact H. lia.
  - simpl. rewrite IH by exact H. lia.
Qed.

(** [main] checks the current directory [.] when the output file name
    has no [/]. *)
Theorem output_dir_of_plain_name o :
  forallb (fun c => negb (is_sep c)) (list_ascii_of_string o) = true ->
  output_dir_of o = "."%string.
Proof.
  intros H. unfold output_dir_of, dirname.
  rewrite last_sep_end_none by exact H. reflexivity.
Qed.

Lemma output_dir_of_plain_name_witness : output_dir_of "up.wav" = "."%string.
Proof. apply output_dir_of_plain_name. reflexivity. Defined.

(** [os.path.dirname(d + '/' + f)] is [d] when [f] has no [/] and [d] is
    not empty and does not end with [/]. *)
Theorem dirname_join d f :
  d <> ""%string ->
  is_sep (last (list_ascii_of_string d) "a"%char) = false ->
  forallb (fun c => negb (is_sep c)) (list_ascii_of_string f) = true ->
  dirname (String.append d (String "/"%char f)) = d.
Proof.
  intros Hd Hl Hf. unfold dirname.
  assert (E : list_ascii_of_string (String.append d (String "/"%char f)) =
              list_ascii_of_string d ++ ["/"%char] ++ list_ascii_of_string f).
  { clear. induction d as [|c d IH]; [reflexivity|]. simpl. rewrite IH. reflexivity. }
  rewrite E, last_sep_end_app by exact Hf.
  set (l := list_ascii_of_string d) in *.
  replace (0 + length l + 1) with (length (l ++ ["/"%char])) by (rewrite length_app; simpl; lia).
  rewrite app_assoc, firstn_app, firstn_all, Nat.sub_diag, firstn_O, app_nil_r.
  assert (Hne : l <> []).
  { unfold l. destruct d; [contradiction|discriminate]. }
  destruct (rev l) as [|c r] eqn:Er.
  { apply (f_equal (@rev ascii)) in Er. rewrite rev_involutive in Er. contradiction. }
  assert (Hc : is_sep c = false).
  { rewrite <- Hl. rewrite <- (rev_involutive l), Er. simpl.
    rewrite last_last. reflexivity. }
  replace (negb (Nat.eqb (length (l ++ ["/"%char])) 0)) with true
    by (rewrite length_app; simpl; symmetry; apply negb_true_iff, Nat.eqb_neq; lia).
  replace (forallb is_sep (l ++ ["/"%char])) with false.
  2:{ symmetry. rewrite forallb_app. rewrite <- (rev_involutive l), Er. simpl.
      rewrite forallb_app. simpl. rewrite Hc. rewrite andb_false_r. reflexivity. }
  cbn [negb andb]. rewrite rev_app_distr. simpl. rewrite Er. simpl. rewrite Hc.
  rewrite <- Er, rev_involutive. unfold l. apply string_of_list_ascii_of_string.
Qed.

Lemma dirname_join_witness : dirname (String.append "music/out" (String "/"%char "up.wav")) = "music/out"%string.
Proof. apply dirname_join; [discriminate|reflexivity|reflexivity]. Defined.
